(** * Tokfence launch infographics: the drawing toolkit of
      [scripts/generate_launch_infographics.py]

    The script resolves five fonts when the module is loaded, and then four
    [render_*] functions each create a canvas, issue a fixed sequence of
    Pillow [ImageDraw] calls through the helpers [panel], [bullet], [arrow]
    and the local [to_xy], and save the canvas.

    The embedding keeps the shape of the script:
    - Python exceptions are a [result] type with a [try ... except] combinator;
    - Python [int] is [Z]; Python [float] is IEEE 754 binary64, taken from the
      Standard Library's [SpecFloat] (precision 53, [emax] 1024);
    - the file system the font probe looks at is a record [FileSystem], whose
      existence test and font loader may both raise;
    - the imaging library is an interface [Backend]: an image type, the
      effect of one [ImageDraw] call on an image and the writing of an image
      to a file, each of which may raise;
    - drawing code lives in the state-and-exception monad [Draw]. *)

From Stdlib Require Import ZArith List String Bool Lia.
From Stdlib Require Import Floats.SpecFloat.
Import ListNotations.

Local Open Scope string_scope.
Local Open Scope list_scope.
Local Open Scope Z_scope.

(** ** Python exceptions *)

(** The exception classes that the modelled calls can raise.  All of them are
    subclasses of [Exception], so a bare [except Exception] catches each. *)
Inductive exn : Type :=
| OSError
| ValueError
| OverflowError.

Inductive result (A : Type) : Type :=
| Ok (a : A)
| Raise (e : exn).

Arguments Ok {A} a.
Arguments Raise {A} e.

Definition rbind {A B : Type} (r : result A) (k : A -> result B) : result B :=
  match r with
  | Ok a => k a
  | Raise e => Raise e
  end.

(** [try: r  except Exception: handler] *)
Definition try_except {A : Type} (r : result A) (handler : exn -> result A)
  : result A :=
  match r with
  | Ok a => Ok a
  | Raise e => handler e
  end.

Definition raises {A : Type} (r : result A) : Prop := exists e, r = Raise e.

Declare Scope py_scope.
Delimit Scope py_scope with py.
Notation "'let*' x ':=' r 'in' k" := (rbind r (fun x => k))
  (at level 10, x pattern, r at level 100, k at level 200) : py_scope.
Local Open Scope py_scope.

(** Truth value of an argument typed [str | None]: [None] and the empty
    string are false, every other string is true. *)
Definition truthy (title : option string) : bool :=
  match title with
  | None => false
  | Some EmptyString => false
  | Some (String _ _) => true
  end.

(** ** Theme constants (lines 10-21) *)

Definition Color := string.

Definition W : Z := 1536.
Definition H : Z := 1024.

Definition BG : Color := "#0B1220".
Definition SURFACE : Color := "#111B30".
Definition SURFACE_ALT : Color := "#0F172A".
Definition BORDER : Color := "#1F2A44".
Definition TEXT : Color := "#E5E7EB".
Definition MUTED : Color := "#94A3B8".
Definition GREEN : Color := "#16A34A".
Definition RED : Color := "#EF4444".
Definition BLUE : Color := "#38BDF8".
Definition AMBER : Color := "#F59E0B".

(** ** Font resolution (lines 24-44) *)

(** A font handle: a scalable face loaded from a file at a size, or Pillow's
    built-in default face. *)
Inductive Font : Type :=
| FreeTypeFont (path : string) (size : Z)
| DefaultFont.

(** What [font] observes of the machine: the outcome of [Path(p).exists()],
    which answers with a boolean or raises (a [PermissionError], an [OSError],
    when a directory on the way may not be searched), and the outcome of
    [ImageFont.truetype(p, size=size)], which returns a handle or raises. *)
Record FileSystem : Type := {
  path_exists : string -> result bool;
  truetype : string -> Z -> result Font
}.

(** [ImageFont.load_default()]: the face is embedded in the library, no file
    is read. *)
Definition load_default : result Font := Ok DefaultFont.

Definition candidates : list string :=
  [ "/System/Library/Fonts/Supplemental/SF Pro Text.ttf";
    "/System/Library/Fonts/Supplemental/Arial Unicode.ttf";
    "/Library/Fonts/Arial.ttf" ].

(** The [for path in candidates] loop of [font]; falling out of the loop
    reaches [return ImageFont.load_default()].  The test [p.exists()] of
    line 32 stands before the [try] of line 33: what it raises leaves
    [font]; only the load is guarded. *)
Fixpoint font_loop (fs : FileSystem) (paths : list string) (size : Z)
  : result Font :=
  match paths with
  | [] => load_default
  | path :: rest =>
      let* found := path_exists fs path in
      if found
      then try_except (truetype fs path size)
                      (fun _ => font_loop fs rest size)
      else font_loop fs rest size
  end.

Definition font (fs : FileSystem) (size : Z) (bold : bool) : result Font :=
  font_loop fs candidates size.

(** The module-level font globals. *)
Record Fonts : Type := {
  F_TITLE : Font;
  F_H2 : Font;
  F_H3 : Font;
  F_BODY : Font;
  F_CAP : Font
}.

(** Lines 40-44, in order; [font(24)] and [font(20)] take the default
    [bold=False]. *)
Definition load_fonts (fs : FileSystem) : result Fonts :=
  let* f_title := font fs 58 true in
  let* f_h2 := font fs 36 true in
  let* f_h3 := font fs 28 true in
  let* f_body := font fs 24 false in
  let* f_cap := font fs 20 false in
  Ok {| F_TITLE := f_title; F_H2 := f_h2; F_H3 := f_h3;
        F_BODY := f_body; F_CAP := f_cap |}.

(** ** The imaging library *)

Definition Point : Type := Z * Z.
Definition Box : Type := Z * Z * Z * Z.

(** One [ImageDraw] call with its arguments. *)
Inductive DrawOp : Type :=
| RoundedRectangle (xy : Box) (radius : Z) (fill outline : option Color)
                   (width : Z)
| Text (xy : Point) (s : string) (fill : Color) (f : Font)
| Ellipse (xy : Box) (fill : Color)
| Line (xy : list Point) (fill : Color) (width : Z)
| Polygon (xy : list Point) (fill : Color).

(** The library itself is not part of the script: it is an interface.
    [Image_new size color] is [Image.new("RGB", size, color)],
    [perform op img] is the effect of one drawing call on the raster, or the
    exception the call raises, and [Image_save name img] is
    [img.save(OUT_DIR / name, format="PNG")], which writes the file or raises
    (an [OSError] when the file cannot be written). *)
Class Backend : Type := {
  Image : Type;
  Image_new : Z * Z -> Color -> Image;
  perform : DrawOp -> Image -> result Image;
  Image_save : string -> Image -> result unit
}.

(** A backend that accepts every call and every save, and keeps the calls in
    order: its image is the sequence of drawing mutations applied so far. *)
Definition Recorder : Backend := {|
  Image := list DrawOp;
  Image_new := fun _ _ => [];
  perform := fun op img => Ok (img ++ [op]);
  Image_save := fun _ _ => Ok tt
|}.

(** The coordinate check that current Pillow releases apply to box-shaped
    calls: the call raises [ValueError] when [x1 < x0] or [y1 < y0].  Equal
    coordinates pass. *)
Definition box_ordered (xy : Box) : bool :=
  let '(x0, y0, x1, y1) := xy in (x0 <=? x1) && (y0 <=? y1).

Definition checks_boxes (op : DrawOp) : bool :=
  match op with
  | RoundedRectangle xy _ _ _ _ => box_ordered xy
  | Ellipse xy _ => box_ordered xy
  | _ => true
  end.

(** A recording backend that rejects disordered boxes. *)
Definition StrictRecorder : Backend := {|
  Image := list DrawOp;
  Image_new := fun _ _ => [];
  perform := fun op img =>
    if checks_boxes op then Ok (img ++ [op]) else Raise ValueError;
  Image_save := fun _ _ => Ok tt
|}.

(** A recording backend with the save left open: every drawing call is
    accepted, and [written name img] is the outcome of the save. *)
Definition SavingRecorder
  (written : string -> list DrawOp -> result unit) : Backend := {|
  Image := list DrawOp;
  Image_new := fun _ _ => [];
  perform := fun op img => Ok (img ++ [op]);
  Image_save := written
|}.

(** A recording backend on a machine where the path of one output file is
    taken, say by a directory: the save under the name [taken] raises. *)
Definition BlockedRecorder (taken : string) : Backend :=
  SavingRecorder (fun name _ =>
    if String.eqb name taken then Raise OSError else Ok tt).

(** ** The drawing monad *)

Section Drawing.

Context {B : Backend}.

(** A drawing computation threads the image and may raise. *)
Definition Draw (A : Type) : Type := Image -> result (A * Image).

Definition ret {A : Type} (a : A) : Draw A := fun img => Ok (a, img).

Definition bind {A C : Type} (m : Draw A) (k : A -> Draw C) : Draw C :=
  fun img =>
    match m img with
    | Ok (a, img') => k a img'
    | Raise e => Raise e
    end.

Definition seq {A : Type} (m : Draw unit) (k : Draw A) : Draw A :=
  bind m (fun _ => k).

(** An exception raised by plain Python code between two drawing calls. *)
Definition lift {A : Type} (r : result A) : Draw A :=
  fun img =>
    match r with
    | Ok a => Ok (a, img)
    | Raise e => Raise e
    end.

Definition call (op : DrawOp) : Draw unit :=
  fun img =>
    match perform op img with
    | Ok img' => Ok (tt, img')
    | Raise e => Raise e
    end.

(** [for x in xs: body x] *)
Fixpoint for_each {A : Type} (xs : list A) (body : A -> Draw unit)
  : Draw unit :=
  match xs with
  | [] => ret tt
  | x :: rest => seq (body x) (for_each rest body)
  end.

End Drawing.

Notation "m ;; k" := (seq m k) (at level 61, right associativity) : py_scope.
Notation "x <-- m ;; k" := (bind m (fun x => k))
  (at level 61, m at next level, right associativity) : py_scope.

(** ** Composite shapes (lines 47-64) *)

Section Shapes.

Context {B : Backend}.
Variable F : Fonts.

(** The [ImageDraw] methods, as calls on the threaded image. *)
Definition rounded_rectangle (xy : Box) (radius : Z)
  (fill outline : option Color) (width : Z) : Draw unit :=
  call (RoundedRectangle xy radius fill outline width).

Definition text (xy : Point) (s : string) (fill : Color) (f : Font)
  : Draw unit :=
  call (Text xy s fill f).

Definition ellipse (xy : Box) (fill : Color) : Draw unit :=
  call (Ellipse xy fill).

Definition line (xy : list Point) (fill : Color) (width : Z) : Draw unit :=
  call (Line xy fill width).

Definition polygon (xy : list Point) (fill : Color) : Draw unit :=
  call (Polygon xy fill).

(** [title=None] is the omitted argument. *)
Definition panel (x y w h : Z) (title : option string) : Draw unit :=
  rounded_rectangle (x, y, x + w, y + h) 20 (Some SURFACE) (Some BORDER) 2 ;;
  if truthy title
  then text (x + 20, y + 14)
            (match title with Some s => s | None => "" end) TEXT (F_H3 F)
  else ret tt.

(** [color=None] is the omitted argument, which takes the default [GREEN]. *)
Definition bullet (x y : Z) (s : string) (color : option Color) : Draw unit :=
  let color := match color with Some c => c | None => GREEN end in
  ellipse (x, y + 8, x + 10, y + 18) color ;;
  text (x + 18, y) s TEXT (F_BODY F).

(** [color=None] is the omitted argument, which takes the default [BLUE]. *)
Definition arrow (x1 y1 x2 y2 : Z) (color : option Color) : Draw unit :=
  let color := match color with Some c => c | None => BLUE end in
  line [(x1, y1); (x2, y2)] color 4 ;;
  let tip :=
    if x2 >=? x1
    then [(x2, y2); (x2 - 14, y2 - 8); (x2 - 14, y2 + 8)]
    else [(x2, y2); (x2 + 14, y2 - 8); (x2 + 14, y2 + 8)] in
  polygon tip color.

End Shapes.

(** ** Python floats *)

(** CPython's [float] is IEEE 754 binary64. *)
Definition float : Type := spec_float.
Definition float_prec : Z := 53.
Definition float_emax : Z := 1024.

(** Conversion of an [int] operand to [float]: correctly rounded, and
    [OverflowError] when the integer is beyond the largest double. *)
Definition float_of_int (n : Z) : result float :=
  match binary_normalize float_prec float_emax n 0 false with
  | S754_infinity _ => Raise OverflowError
  | x => Ok x
  end.

(** The decimal literal [digits * 10^-places], for instance [0.05] is
    [decimal 5 2]: the double nearest to the decimal value.  Both operands of
    the division are exact, so the one rounding of [SFdiv] is that of the
    literal. *)
Definition decimal (digits : Z) (places : nat) : float :=
  SFdiv float_prec float_emax
        (binary_normalize float_prec float_emax digits 0 false)
        (binary_normalize float_prec float_emax (10 ^ Z.of_nat places) 0 false).

(** [x * n] for a float [x] and an int [n]. *)
Definition float_mul_int (x : float) (n : Z) : result float :=
  let* y := float_of_int n in
  Ok (SFmul float_prec float_emax x y).

(** [int(x)]: truncation toward zero; [OverflowError] on an infinity and
    [ValueError] on a NaN. *)
Definition int_of_float (x : float) : result Z :=
  match x with
  | S754_zero _ => Ok 0
  | S754_finite s m e => Ok (cond_Zopp s (Z.shiftl (Zpos m) e))
  | S754_infinity _ => Raise OverflowError
  | S754_nan => Raise ValueError
  end.

(** [origin + int(p * size)], one axis of the chart mapping. *)
Definition to_pixel (origin size : Z) (p : float) : result Z :=
  let* scaled := float_mul_int p size in
  let* offset := int_of_float scaled in
  Ok (origin + offset).

(** The local function [to_xy] of [render_leak_detection] (lines 229-233);
    its free variables [chart_x], [chart_y], [chart_w], [chart_h] are
    parameters here. *)
Fixpoint to_xy (chart_x chart_y chart_w chart_h : Z)
  (points : list (float * float)) : result (list Point) :=
  match points with
  | [] => Ok []
  | (px, py) :: rest =>
      let* x := to_pixel chart_x chart_w px in
      let* y := to_pixel chart_y chart_h py in
      let* out := to_xy chart_x chart_y chart_w chart_h rest in
      Ok ((x, y) :: out)
  end.

(** ** The four diagrams (lines 67-255) *)

Section Diagrams.

Context {B : Backend}.
Variable F : Fonts.

(** A render: the canvas is created, the body [d] draws on it, and
    [img.save(OUT_DIR / name, format="PNG")] writes it.  The outcome is the
    file name and the image written to it; an exception of a drawing call or
    of the save leaves the render. *)
Definition save (name : string) (d : Draw unit) : result (string * Image) :=
  let* (_, img) := d (Image_new (W, H) BG) in
  let* _ := Image_save name img in
  Ok (name, img).

Definition render_architecture : result (string * Image) :=
  save "infographic_architecture.png" (
    text (56, 40) "Tokfence Architecture" TEXT (F_TITLE F) ;;
    text (56, 112)
         "Agents-first desktop + UDS/TCP dual transport + ImmuneFence"
         MUTED (F_CAP F) ;;

    panel F 56 180 280 260 (Some "Clients") ;;
    bullet F 82 242 "OpenClaw" None ;;
    bullet F 82 286 "CLI" None ;;
    bullet F 82 330 "Desktop App" None ;;

    panel F 390 180 280 260 (Some "Transport") ;;
    bullet F 416 242 "UDS: ~/.tokfence/tokfence.sock" (Some BLUE) ;;
    bullet F 416 286 "TCP: 127.0.0.1:9471" (Some BLUE) ;;
    bullet F 416 330 "Socket perms: 0660" (Some BLUE) ;;

    panel F 724 180 360 260 (Some "Tokfence Core") ;;
    bullet F 750 242 "Proxy routing + header sanitization" None ;;
    bullet F 750 286 "Budget + rate limits + kill switch" None ;;
    bullet F 750 330 "Live logs + stats + watch" None ;;

    panel F 1138 180 340 260 (Some "Providers") ;;
    bullet F 1164 242 "Anthropic / OpenAI / Groq" None ;;
    bullet F 1164 286 "Mistral / Google / OpenRouter" None ;;
    bullet F 1164 330 "Custom upstreams" None ;;

    arrow 336 310 390 310 None ;;
    arrow 670 310 724 310 None ;;
    arrow 1084 310 1138 310 None ;;

    panel F 56 500 700 440 (Some "Security Layer (ImmuneFence)") ;;
    bullet F 84 562 "Capability token validation (Ed25519)" None ;;
    bullet F 84 606 "Risk ladder: GREEN -> YELLOW -> ORANGE -> RED"
           (Some AMBER) ;;
    bullet F 84 650 "Sensor scans: secret refs, endpoint abuse" None ;;
    bullet F 84 694 "Canary leak tripwire -> RED escalation" (Some RED) ;;
    bullet F 84 738 "Scope restrictions per risk state" None ;;

    panel F 800 500 678 440 (Some "Data Plane Guarantees") ;;
    bullet F 828 562 "Keys stay in vault (Keychain/Argon2 file)" None ;;
    bullet F 828 606 "Agent receives dummy apiKey only" None ;;
    bullet F 828 650 "Upstream auth injected at request time" None ;;
    bullet F 828 694 "No secret bodies in normal request logs" None ;;
    bullet F 828 738 "Desktop snapshots: local-only, 0600" None).

(** The [for name, color in segments] loop of [render_security_model]; the
    running [sx] is an argument, the other locals are fixed. *)
Fixpoint segments_loop (risk_x risk_w sy sw : Z)
  (segments : list (string * Color)) (sx : Z) : Draw unit :=
  match segments with
  | [] => ret tt
  | (name, color) :: rest =>
      rounded_rectangle (sx, sy, sx + sw, sy + 76) 12 (Some color) None 1 ;;
      text (sx + 46, sy + 24) name "#0B1220" (F_H3 F) ;;
      (if sx + sw + 42 <? risk_x + risk_w
       then arrow (sx + sw + 8) (sy + 38) (sx + sw + 34) (sy + 38) (Some BLUE)
       else ret tt) ;;
      segments_loop risk_x risk_w sy sw rest (sx + (sw + 50))
  end.

Definition render_security_model : result (string * Image) :=
  let risk_x := 620 in
  let risk_y := 590 in
  let risk_w := 780 in
  let risk_h := 290 in
  let segments :=
    [ ("GREEN", GREEN); ("YELLOW", AMBER); ("ORANGE", "#FB923C");
      ("RED", RED) ] in
  let sx := risk_x + 28 in
  let sy := risk_y + 86 in
  let sw := 170 in
  save "infographic_security_model.png" (
    text (56, 40) "Tokfence Security Model" TEXT (F_TITLE F) ;;
    text (56, 112) "Practical trust boundaries and layered controls"
         MUTED (F_CAP F) ;;

    panel F 56 180 460 760 (Some "Threats") ;;
    bullet F 84 250 "Prompt injection attempts to exfiltrate keys"
           (Some RED) ;;
    bullet F 84 300 "Compromised local process calls proxy" (Some RED) ;;
    bullet F 84 350 "Runaway token spend or abuse" (Some RED) ;;
    bullet F 84 400 "Dangerous endpoint/method misuse" (Some RED) ;;
    bullet F 84 450 "Leaked token appears in outputs" (Some RED) ;;
    text (84, 530) "Boundary note:" TEXT (F_H3 F) ;;
    text (84, 574) "localhost is not a full isolation boundary."
         MUTED (F_BODY F) ;;
    text (84, 612) "UDS + capabilities reduce attack surface"
         MUTED (F_BODY F) ;;
    text (84, 650) "but do not replace host compromise defenses."
         MUTED (F_BODY F) ;;

    panel F 556 180 924 760 (Some "Controls") ;;
    bullet F 584 250 "Vault-backed key injection (no plaintext key in agent)"
           None ;;
    bullet F 584 300 "Dual listener: UDS preferred, TCP for Docker flows"
           (Some BLUE) ;;
    bullet F 584 350 "Capability gating before upstream/tool actions" None ;;
    bullet F 584 400 "Risk-state policy enforcement (scope + TTL)" None ;;
    bullet F 584 450 "Budget/rate-limit/kill switch containment" None ;;
    bullet F 584 500 "Canary leak detection with incident logging"
           (Some AMBER) ;;

    rounded_rectangle (risk_x, risk_y, risk_x + risk_w, risk_y + risk_h) 16
                      (Some SURFACE_ALT) (Some BORDER) 2 ;;
    text (risk_x + 24, risk_y + 16) "Risk Escalation" TEXT (F_H3 F) ;;

    segments_loop risk_x risk_w sy sw segments sx ;;

    text (risk_x + 24, risk_y + 196)
         "No auto-downgrade in-session. New session/reset required."
         MUTED (F_BODY F)).

(** The [for line in actions] loop of [render_control_plane], with its
    running [y]. *)
Fixpoint actions_loop (actions : list string) (y : Z) : Draw unit :=
  match actions with
  | [] => ret tt
  | line :: rest =>
      text (84, y) ("- " ++ line)%string MUTED (F_BODY F) ;;
      actions_loop rest (y + 44)
  end.

(** The [for key, val, col in state_lines] loop, with its running [y]. *)
Fixpoint state_lines_loop (state_lines : list (string * string * Color))
  (y : Z) : Draw unit :=
  match state_lines with
  | [] => ret tt
  | (key, val, col) :: rest =>
      rounded_rectangle (844, y, 1452, y + 90) 14
                        (Some SURFACE_ALT) (Some BORDER) 2 ;;
      text (870, y + 20) key TEXT (F_H3 F) ;;
      text (1110, y + 24) val col (F_BODY F) ;;
      state_lines_loop rest (y + 104)
  end.

Definition render_control_plane : result (string * Image) :=
  let actions :=
    [ "tokfence start / stop / status";
      "tokfence launch / restart / logs";
      "tokfence kill / unkill / revoke / restore";
      "tokfence budget set / clear / status";
      "tokfence watch --once / --interval" ] in
  let state_lines :=
    [ ("Daemon", "Online", GREEN);
      ("Transport", "UDS preferred + TCP fallback", BLUE);
      ("Capabilities", "Session scoped + signed", GREEN);
      ("Risk", "GREEN / YELLOW / ORANGE / RED", AMBER);
      ("Kill switch", "Immediate global block", RED);
      ("Audit", "SQLite request logs + stats", GREEN) ] in
  save "infographic_control_plane.png" (
    text (56, 40) "Tokfence Control Plane" TEXT (F_TITLE F) ;;
    text (56, 112) "Desktop + CLI operate the same local daemon state"
         MUTED (F_CAP F) ;;

    panel F 56 180 720 760 (Some "Operator Surfaces") ;;
    bullet F 84 250 "Agents tab: guided setup and runtime controls" None ;;
    bullet F 84 300 "Overview / Activity / Budget / Providers" None ;;
    bullet F 84 350 "Desktop snapshots for widget + menu bar" None ;;
    bullet F 84 400 "CLI JSON contract for desktop integration" None ;;

    text (84, 490) "Primary actions" TEXT (F_H3 F) ;;
    actions_loop actions 540 ;;

    panel F 816 180 664 760 (Some "Runtime State") ;;
    state_lines_loop state_lines 250).

Definition points_local : list (float * float) :=
  [ (decimal 5 2, decimal 78 2); (decimal 20 2, decimal 70 2);
    (decimal 35 2, decimal 58 2); (decimal 50 2, decimal 54 2);
    (decimal 65 2, decimal 48 2); (decimal 80 2, decimal 44 2);
    (decimal 93 2, decimal 40 2) ].

Definition points_remote : list (float * float) :=
  [ (decimal 5 2, decimal 78 2); (decimal 20 2, decimal 70 2);
    (decimal 35 2, decimal 58 2); (decimal 50 2, decimal 51 2);
    (decimal 65 2, decimal 40 2); (decimal 80 2, decimal 30 2);
    (decimal 93 2, decimal 18 2) ].

(** The marker loop [for p in xy: d.ellipse((p[0]-5, p[1]-5, p[0]+5, p[1]+5),
    fill=color)]. *)
Definition markers (xy : list Point) (color : Color) : Draw unit :=
  for_each xy (fun p =>
    ellipse (fst p - 5, snd p - 5, fst p + 5, snd p + 5) color).

Definition render_leak_detection : result (string * Image) :=
  let chart_x := 92 in
  let chart_y := 560 in
  let chart_w := 1360 in
  let chart_h := 300 in
  save "infographic_leak_detection.png" (
    text (56, 40) "Key Leak Detector" TEXT (F_TITLE F) ;;
    text (56, 112)
         "Compare provider usage vs Tokfence logs and raise incidents"
         MUTED (F_CAP F) ;;

    panel F 56 180 1424 260 (Some "Detection Inputs") ;;
    bullet F 84 248 "Local logs: request count, tokens, cost by provider"
           None ;;
    bullet F 84 292 "Remote usage endpoint: billing/usage totals" None ;;
    bullet F 84 336 "Thresholds: absolute delta + percentage + idle-window"
           None ;;

    panel F 56 470 1424 470 (Some "Detection Timeline") ;;
    rounded_rectangle (chart_x, chart_y, chart_x + chart_w, chart_y + chart_h)
                      12 (Some SURFACE_ALT) (Some BORDER) 2 ;;

    local_xy <-- lift (to_xy chart_x chart_y chart_w chart_h points_local) ;;
    remote_xy <-- lift (to_xy chart_x chart_y chart_w chart_h points_remote) ;;
    line local_xy GREEN 5 ;;
    line remote_xy RED 5 ;;

    markers local_xy GREEN ;;
    markers remote_xy RED ;;

    text (chart_x + 30, chart_y + 18) "Green = Tokfence local usage"
         GREEN (F_CAP F) ;;
    text (chart_x + 30, chart_y + 52) "Red = provider-side usage"
         RED (F_CAP F) ;;

    ax <-- lift (to_pixel chart_x chart_w (decimal 82 2)) ;;
    ay <-- lift (to_pixel chart_y chart_h (decimal 30 2)) ;;
    rounded_rectangle (ax - 170, ay - 120, ax + 220, ay + 30) 12
                      (Some "#2B0E15") (Some RED) 2 ;;
    text (ax - 150, ay - 94) "Delta exceeds threshold" TEXT (F_BODY F) ;;
    text (ax - 150, ay - 54) "Risk -> RED, optional auto-revoke"
         TEXT (F_CAP F) ;;
    arrow (ax - 30) (ay - 8) (ax + 10) (ay + 18) (Some RED)).

End Diagrams.

(** A run of one diagram from a cold start: the module is loaded, which
    resolves the fonts against the file system, and the diagram is rendered.
    The argument [render] is one of the four [render_*] functions. *)
Definition run {B : Backend} (render : Fonts -> result (string * Image))
  (fs : FileSystem) : result (string * Image) :=
  let* fonts := load_fonts fs in
  render fonts.

(** ** The entry point (lines 258-264) *)

(** What [main] leaves behind: the files written, in order, and the lines
    printed.  Unlike the canvas of a diagram, this state survives an
    exception. *)
Record World {B : Backend} : Type := {
  files : list (string * Image);
  stdout : list string
}.

Definition IO {B : Backend} (A : Type) : Type := World -> result A * World.

Definition io_seq {B : Backend} {A : Type} (m : IO unit) (k : IO A) : IO A :=
  fun w =>
    match m w with
    | (Ok _, w') => k w'
    | (Raise e, w') => (Raise e, w')
    end.

(** A call into the operating system whose outcome [r] the environment
    decides, here [OUT_DIR.mkdir(parents=True, exist_ok=True)]. *)
Definition os_call {B : Backend} (r : result unit) : IO unit :=
  fun w => (r, w).

(** One [render_*()] call: the diagram is drawn and, when neither a drawing
    call nor the save raised, its file is there. *)
Definition rendering {B : Backend} (r : result (string * Image)) : IO unit :=
  fun w =>
    match r with
    | Ok file => (Ok tt, {| files := files w ++ [file]; stdout := stdout w |})
    | Raise e => (Raise e, w)
    end.

Definition print {B : Backend} (s : string) : IO unit :=
  fun w => (Ok tt, {| files := files w; stdout := stdout w ++ [s] |}).

Notation "m ;;; k" := (io_seq m k) (at level 62, right associativity)
  : py_scope.

(** [out_dir] is the text of [OUT_DIR] and [mkdir] the outcome of creating
    it. *)
Definition main {B : Backend} (out_dir : string) (mkdir : result unit)
  (F : Fonts) : IO unit :=
  os_call mkdir ;;;
  rendering (render_architecture F) ;;;
  rendering (render_security_model F) ;;;
  rendering (render_control_plane F) ;;;
  rendering (render_leak_detection F) ;;;
  print ("updated infographics in " ++ out_dir)%string.

(** ** Concrete machines and fonts used in examples *)

(** A machine with none of the candidate font files. *)
Definition bare_fs : FileSystem := {|
  path_exists := fun _ => Ok false;
  truetype := fun _ _ => Raise OSError
|}.

(** A machine where the first candidate exists but is not a loadable font,
    the second is missing, and the third loads. *)
Definition arial_fs : FileSystem := {|
  path_exists := fun p =>
    Ok (String.eqb p "/System/Library/Fonts/Supplemental/SF Pro Text.ttf"
        || String.eqb p "/Library/Fonts/Arial.ttf");
  truetype := fun p size =>
    if String.eqb p "/Library/Fonts/Arial.ttf"
    then Ok (FreeTypeFont p size)
    else Raise OSError
|}.

(** As [arial_fs], with one more file that is not a candidate. *)
Definition arial_fs' : FileSystem := {|
  path_exists := fun p =>
    if String.eqb p "/usr/share/fonts/DejaVuSans.ttf" then Ok true
    else path_exists arial_fs p;
  truetype := fun p size =>
    if String.eqb p "/usr/share/fonts/DejaVuSans.ttf"
    then Ok (FreeTypeFont p size)
    else truetype arial_fs p size
|}.

Definition default_fonts : Fonts := {|
  F_TITLE := DefaultFont; F_H2 := DefaultFont; F_H3 := DefaultFont;
  F_BODY := DefaultFont; F_CAP := DefaultFont
|}.

(** A machine where the directory of the first two candidates may not be
    searched, so that testing them raises, and the third candidate loads. *)
Definition denied_fs : FileSystem := {|
  path_exists := fun p =>
    if String.eqb p "/Library/Fonts/Arial.ttf" then Ok true
    else Raise OSError;
  truetype := fun p size =>
    if String.eqb p "/Library/Fonts/Arial.ttf"
    then Ok (FreeTypeFont p size)
    else Raise OSError
|}.

(** A candidate that [font] passes over: it is missing, or it is there and
    loading it raises. *)
Definition unusable (fs : FileSystem) (size : Z) (path : string) : Prop :=
  path_exists fs path = Ok false \/
  (path_exists fs path = Ok true /\ raises (truetype fs path size)).

(** ** Vocabulary of the statements *)

(** On the recording backend a computation returns the calls it made,
    appended in order to those already made. *)
Definition draws (m : Draw (B := Recorder) unit) (ops : list DrawOp) : Prop :=
  forall img : list DrawOp, m img = Ok (tt, img ++ ops).

(** C5 read literally: every present title is drawn. *)
Definition panel_draws_every_title : Prop :=
  forall (F : Fonts) (x y w h : Z) (title : string),
    w > 0 -> h > 0 ->
    draws (panel F x y w h (Some title))
          [ RoundedRectangle (x, y, x + w, y + h) 20
                             (Some SURFACE) (Some BORDER) 2;
            Text (x + 20, y + 14) title TEXT (F_H3 F) ].

(** C3 read literally: a zero or negative width or height makes the call
    fail, whatever the backend. *)
Definition panel_rejects_degenerate : Prop :=
  forall (B : Backend) (F : Fonts) (x y w h : Z) (title : option string)
         (img : Image),
    w <= 0 \/ h <= 0 -> raises (panel F x y w h title img).

(** The floats [0.0] and [1.0]. *)
Definition float_zero : float := S754_zero false.
Definition float_one : float := S754_finite false 4503599627370496 (-52).

(** A coordinate of a normalized point: a well-formed double in [[0, 1]]. *)
Definition normalized (x : float) : bool :=
  valid_binary float_prec float_emax x
  && SFleb float_zero x && SFleb x float_one.

(** C6 read literally, for its corner [(1,1)]: every chart with positive
    width and height maps it to [(bx+bw, by+bh)]. *)
Definition chart_maps_unit_corner : Prop :=
  forall bx by_ bw bh : Z,
    bw > 0 -> bh > 0 ->
    to_xy bx by_ bw bh [ (float_one, float_one) ]
      = Ok [ (bx + bw, by_ + bh) ].

(** ** Rounding on a fixed-point scale

    Every double that the chart mapping meets is an integer multiple of a
    fixed power of two.  On that scale rounding to nearest, ties to even, is
    a function on integers, and its order properties are integer
    arithmetic. *)

(** The quotient of [V] by [2^k], rounded to nearest, ties to even. *)
Definition nearest_even (V k : Z) : Z :=
  let q := V / 2 ^ k in
  let r := V mod 2 ^ k in
  match 2 * r ?= 2 ^ k with
  | Lt => q
  | Eq => if Z.even q then q else q + 1
  | Gt => q + 1
  end.

(** The exponent of the unit in the last place of [V], for [prec] bits of
    mantissa and smallest exponent [G]. *)
Definition grid (prec G V : Z) : Z := Z.max (Z.log2 V + 1 - prec) G.

Definition round_fix (prec G V : Z) : Z :=
  nearest_even V (grid prec G V) * 2 ^ grid prec G V.

(** What the round and sticky bits of a shifted mantissa say about the bits
    shifted out, [rem], against the weight [P] of the last bit kept. *)
Definition loc_matches (r s : bool) (rem P : Z) : Prop :=
  match r, s with
  | false, false => rem = 0
  | false, true => 0 < rem /\ 2 * rem < P
  | true, false => 2 * rem = P
  | true, true => P < 2 * rem
  end.

(** Invariant of [k] steps of [shr_1] on the mantissa [m]. *)
Definition shr_inv (m k : Z) (rec : shr_record) : Prop :=
  0 <= shr_m rec /\
  exists rem, m = shr_m rec * 2 ^ k + rem /\ 0 <= rem < 2 ^ k /\
              loc_matches (shr_r rec) (shr_s rec) rem (2 ^ k).

(** The scale: doubles are multiples of [2^-fix_scale] (1074 for binary64). *)
Definition fix_scale (prec emax : Z) : Z := emax + prec - 3.

(** The value of a non-negative float in units of [2^-M]. *)
Definition fix_val (M : Z) (x : float) : Z :=
  match x with
  | S754_finite false m e => Z.pos m * 2 ^ (e + M)
  | _ => 0
  end.

(** [int(x * w)] computed on the fixed-point scale. *)
Definition pixel_offset (prec emax w : Z) (x : float) : Z :=
  round_fix prec (fix_scale prec emax)
            (fix_val (fix_scale prec emax) x * w * 2 ^ fix_scale prec emax)
  / 2 ^ (fix_scale prec emax + fix_scale prec emax).

(** A non-negative float that is at most one. *)
Definition unit_float (prec emax : Z) (x : float) : Prop :=
  match x with
  | S754_zero _ => True
  | S754_finite false m e =>
      0 <= e + fix_scale prec emax /\
      Z.pos m * 2 ^ (e + fix_scale prec emax) <= 2 ^ fix_scale prec emax
  | _ => False
  end.

(** [int(x * y)] for non-negative floats [x] and [y], computed on the
    fixed-point scale. *)
Definition scaled_offset (prec emax : Z) (y x : float) : Z :=
  round_fix prec (fix_scale prec emax)
            (fix_val (fix_scale prec emax) x * fix_val (fix_scale prec emax) y)
  / 2 ^ (fix_scale prec emax + fix_scale prec emax).

(** An [int] in the range of a double: converting it does not overflow. *)
Definition converts (n : Z) : bool :=
  match float_of_int n with
  | Ok _ => true
  | Raise _ => false
  end.

(** An [int] that is a double: the conversion to [float] and back returns
    it. *)
Definition exact_double (n : Z) : bool :=
  match float_of_int n with
  | Ok x =>
      match int_of_float x with
      | Ok k => k =? n
      | Raise _ => false
      end
  | Raise _ => false
  end.

(** ** Vocabulary of the further properties *)

(** The calls a computation makes on the recording backend, from an empty
    canvas. *)
Definition calls (m : Draw (B := Recorder) unit) : list DrawOp :=
  match m [] with
  | Ok (_, ops) => ops
  | Raise _ => []
  end.

(** Performing a list of calls in order on a backend, stopping at the first
    that raises. *)
Fixpoint perform_all {B : Backend} (ops : list DrawOp) (img : Image)
  : result Image :=
  match ops with
  | [] => Ok img
  | op :: rest => let* img' := perform op img in perform_all rest img'
  end.

Definition replay {B : Backend} (ops : list DrawOp) : Draw unit :=
  fun img => let* img' := perform_all ops img in Ok (tt, img').

(** The same for a whole diagram: a fresh canvas, the calls [ops] performed
    in order, and the save under [name]; the first call that raises, or the
    save, ends it. *)
Definition replay_file {B : Backend} (name : string) (ops : list DrawOp)
  : result (string * Image) :=
  let* img := perform_all ops (Image_new (W, H) BG) in
  let* _ := Image_save name img in
  Ok (name, img).

Definition replay_saved {B : Backend} (r : result (string * list DrawOp))
  : result (string * Image) :=
  let* (name, ops) := r in replay_file name ops.

(** A diagram that is one fixed list of [count] calls saved under [name]:
    the recording backend lists the calls, and on every backend the render
    is the replay of that list. *)
Definition replays_file (name : string) (count : nat)
  (render : forall B : Backend, result (string * Image (Backend := B)))
  : Prop :=
  exists ops : list DrawOp,
    render Recorder = Ok (name, ops) /\
    List.length ops = count /\
    forall B : Backend, render B = replay_file name ops.

(** A computation that behaves on every backend as the replay of one fixed
    list of calls. *)
Definition replays (m : forall B : Backend, Draw (B := B) unit)
  (ops : list DrawOp) : Prop :=
  forall (B : Backend) (img : Image), m B img = replay ops img.

(** Translation of a call by [(dx, dy)]. *)
Definition shift_point (dx dy : Z) (p : Point) : Point :=
  (fst p + dx, snd p + dy).

Definition shift_box (dx dy : Z) (b : Box) : Box :=
  let '(x0, y0, x1, y1) := b in (x0 + dx, y0 + dy, x1 + dx, y1 + dy).

Definition shift_op (dx dy : Z) (op : DrawOp) : DrawOp :=
  match op with
  | RoundedRectangle xy r fill outline w =>
      RoundedRectangle (shift_box dx dy xy) r fill outline w
  | Text xy s fill f => Text (shift_point dx dy xy) s fill f
  | Ellipse xy fill => Ellipse (shift_box dx dy xy) fill
  | Line xy fill w => Line (map (shift_point dx dy) xy) fill w
  | Polygon xy fill => Polygon (map (shift_point dx dy) xy) fill
  end.

(** Reflection of a call in the vertical axis [x = 0]. *)
Definition mirror_point (p : Point) : Point := (- fst p, snd p).

Definition mirror_box (b : Box) : Box :=
  let '(x0, y0, x1, y1) := b in (- x1, y0, - x0, y1).

Definition mirror_op (op : DrawOp) : DrawOp :=
  match op with
  | RoundedRectangle xy r fill outline w =>
      RoundedRectangle (mirror_box xy) r fill outline w
  | Text xy s fill f => Text (mirror_point xy) s fill f
  | Ellipse xy fill => Ellipse (mirror_box xy) fill
  | Line xy fill w => Line (map mirror_point xy) fill w
  | Polygon xy fill => Polygon (map mirror_point xy) fill
  end.

(** A call that is sound on the [W] x [H] canvas: anchors and corners are
    pixels of the canvas, boxes have positive width and height, a line has
    two points and a polygon three, text is not empty. *)
Definition inside_canvas (p : Point) : bool :=
  (0 <=? fst p) && (fst p <? W) && (0 <=? snd p) && (snd p <? H).

Definition proper_box (xy : Box) : bool :=
  let '(x0, y0, x1, y1) := xy in
  (x0 <? x1) && (y0 <? y1) && inside_canvas (x0, y0) && inside_canvas (x1, y1).

Definition well_formed (op : DrawOp) : bool :=
  match op with
  | RoundedRectangle xy radius _ _ width =>
      proper_box xy && (0 <=? radius) && (0 <? width)
  | Text xy s _ _ => inside_canvas xy && negb (String.eqb s "")
  | Ellipse xy _ => proper_box xy
  | Line xy _ width =>
      (2 <=? Z.of_nat (List.length xy)) && forallb inside_canvas xy
      && (0 <? width)
  | Polygon xy _ =>
      (3 <=? Z.of_nat (List.length xy)) && forallb inside_canvas xy
  end.

(** The calls [ops] that a diagram issues are sound, and the coordinate
    check rejects none of them.  That [ops] are the calls issued is read off
    a recording backend, whatever its save does: the render issues [ops],
    then saves under [name], and ends as the save ends. *)
Definition diagram_ok (name : string)
  (render : forall B : Backend, result (string * Image (Backend := B)))
  : Prop :=
  exists ops : list DrawOp,
    forallb well_formed ops = true /\
    perform_all (B := StrictRecorder) ops [] = Ok ops /\
    forall written : string -> list DrawOp -> result unit,
      render (SavingRecorder written)
      = let* _ := written name ops in Ok (name, ops).

(** What [segments_loop] draws for the segment of index [k] (from 0) when
    the loop starts at [sx]: the box at pitch [sw + 50] in the segment's
    colour, the label, and the connector arrow with its head pointing right
    when it ends left of the risk box's right edge. *)
Definition segment_calls (F : Fonts) (risk_x risk_w sy sw sx : Z)
  (entry : nat * (string * Color)) : list DrawOp :=
  let '(k, (name, color)) := entry in
  let x := sx + Z.of_nat k * (sw + 50) in
  [ RoundedRectangle (x, sy, x + sw, sy + 76) 12 (Some color) None 1;
    Text (x + 46, sy + 24) name "#0B1220" (F_H3 F) ]
  ++ (if x + sw + 42 <? risk_x + risk_w
      then [ Line [ (x + sw + 8, sy + 38); (x + sw + 34, sy + 38) ] BLUE 4;
             Polygon [ (x + sw + 34, sy + 38); (x + sw + 20, sy + 30);
                       (x + sw + 20, sy + 46) ] BLUE ]
      else []).

(** What [segments_loop] may draw for [n] segments starting at [sx]: the
    [k]-th segment box and its label at pitch [sw + 50], and connector
    arrows that stay in the gap after a segment and at least 8 pixels left
    of the right edge of the risk box. *)
Definition segment_op_ok (risk_x risk_w sy sw sx : Z) (n : nat)
  (op : DrawOp) : Prop :=
  match op with
  | RoundedRectangle (x0, y0, x1, y1) _ _ _ _ =>
      exists k, 0 <= k < Z.of_nat n /\
                x0 = sx + k * (sw + 50) /\ x1 = x0 + sw /\
                y0 = sy /\ y1 = sy + 76
  | Text (x, y) _ _ _ =>
      exists k, 0 <= k < Z.of_nat n /\
                x = sx + k * (sw + 50) + 46 /\ y = sy + 24
  | Line xy _ _ | Polygon xy _ =>
      forall p, In p xy ->
        fst p + 8 < risk_x + risk_w /\ sy + 30 <= snd p <= sy + 46 /\
        exists k, 0 <= k < Z.of_nat n /\
                  sx + k * (sw + 50) + sw < fst p < sx + (k + 1) * (sw + 50)
  | Ellipse _ _ => False
  end.

(** The files of the four diagrams, in the order [main] renders them. *)
Definition diagram_files : list string :=
  [ "infographic_architecture.png"; "infographic_security_model.png";
    "infographic_control_plane.png"; "infographic_leak_detection.png" ].

(** A NaN or an infinity. *)
Definition non_finite (x : float) : bool :=
  match x with
  | S754_nan | S754_infinity _ => true
  | _ => false
  end.

(** A normalized point. *)
Definition normalized_point (p : float * float) : bool :=
  normalized (fst p) && normalized (snd p).

(** The floor of the exact product [p * size], for a non-negative float
    [p]: [fix_val] is [p] in units of [2^-1074]. *)
Definition exact_floor (p : float) (size : Z) : Z :=
  (fix_val (fix_scale float_prec float_emax) p * size)
  / 2 ^ fix_scale float_prec float_emax.

(** * Properties *)

(** ** Font resolution *)

(** Where every existence test answers, [font] returns: the loop runs out
    into the built-in default at the latest. *)
Lemma font_loop_total (fs : FileSystem) (size : Z) (paths : list string) :
  (forall p, In p paths -> exists found, path_exists fs p = Ok found) ->
  exists f, font_loop fs paths size = Ok f.
Proof.
  induction paths as [|path rest IH]; intros Hprobe; simpl.
  - exists DefaultFont. reflexivity.
  - destruct (Hprobe path (or_introl eq_refl)) as [found ->]. simpl.
    assert (Hrest : exists f, font_loop fs rest size = Ok f)
      by (apply IH; intros p Hin; apply Hprobe; right; exact Hin).
    destruct found; [|exact Hrest].
    destruct (truetype fs path size) as [f|e]; simpl.
    + exists f. reflexivity.
    + exact Hrest.
Qed.

Lemma font_loop_skip (fs : FileSystem) (size : Z) (before rest : list string) :
  (forall q, In q before -> unusable fs size q) ->
  font_loop fs (before ++ rest) size = font_loop fs rest size.
Proof.
  induction before as [|q before IH]; intros Hbad; simpl.
  - reflexivity.
  - assert (Hq : unusable fs size q) by (apply Hbad; left; reflexivity).
    assert (Hrest : forall q', In q' before -> unusable fs size q')
      by (intros q' Hin; apply Hbad; right; exact Hin).
    destruct Hq as [Hmissing | [Hthere [e Hraise]]].
    + rewrite Hmissing. apply IH, Hrest.
    + rewrite Hthere, Hraise. simpl. apply IH, Hrest.
Qed.

Lemma font_loop_hit (fs : FileSystem) (size : Z) (p : string)
  (rest : list string) (f : Font) :
  path_exists fs p = Ok true -> truetype fs p size = Ok f ->
  font_loop fs (p :: rest) size = Ok f.
Proof. intros Hex Hload. simpl. rewrite Hex, Hload. reflexivity. Qed.

(** What the [try] of lines 33-36 does achieve: on a machine where every
    existence test answers, [font] returns a handle; when every candidate is
    missing or fails to load, the handle is the built-in default; a candidate
    that fails to load is passed over, and the result is the first candidate,
    in the listed order, that exists and loads. *)
Lemma font_returns_when_probes_answer (fs : FileSystem) (size : Z)
  (bold : bool) :
  ((forall p, In p candidates -> exists found, path_exists fs p = Ok found) ->
   exists f, font fs size bold = Ok f) /\
  ((forall p, In p candidates -> unusable fs size p) ->
   font fs size bold = Ok DefaultFont) /\
  (forall before p after f,
     candidates = before ++ p :: after ->
     (forall q, In q before -> unusable fs size q) ->
     path_exists fs p = Ok true -> truetype fs p size = Ok f ->
     font fs size bold = Ok f).
Proof.
  unfold font. split; [apply font_loop_total | split].
  - intros Hbad.
    rewrite <- (app_nil_r candidates).
    rewrite font_loop_skip by exact Hbad. reflexivity.
  - intros before p after f Hsplit Hbad Hex Hload.
    rewrite Hsplit, font_loop_skip by exact Hbad.
    apply font_loop_hit; assumption.
Qed.

(** C4 does not hold of the code.  The existence test of a candidate stands
    outside the [try]: when it raises at the first candidate that is not
    passed over, the exception leaves [font], whatever the later candidates
    would give, and the built-in default is not reached. *)
Theorem font_probe_failure_escapes (fs : FileSystem) (size : Z) (bold : bool)
  (before : list string) (p : string) (after : list string) (e : exn) :
  candidates = before ++ p :: after ->
  (forall q, In q before -> unusable fs size q) ->
  path_exists fs p = Raise e ->
  font fs size bold = Raise e.
Proof.
  intros Hsplit Hbad Hprobe. unfold font.
  rewrite Hsplit, font_loop_skip by exact Hbad.
  simpl. rewrite Hprobe. reflexivity.
Qed.

(** On [denied_fs] the test of the first candidate raises: [font(28,
    bold=True)] raises, although the third candidate exists and loads. *)
Lemma font_probe_failure_escapes_witness :
  font denied_fs 28 true = Raise OSError /\
  path_exists denied_fs "/Library/Fonts/Arial.ttf" = Ok true /\
  truetype denied_fs "/Library/Fonts/Arial.ttf" 28
    = Ok (FreeTypeFont "/Library/Fonts/Arial.ttf" 28).
Proof.
  split; [|split; reflexivity].
  apply (font_probe_failure_escapes denied_fs 28 true []
           "/System/Library/Fonts/Supplemental/SF Pro Text.ttf"
           [ "/System/Library/Fonts/Supplemental/Arial Unicode.ttf";
             "/Library/Fonts/Arial.ttf" ] OSError).
  - reflexivity.
  - intros q [].
  - reflexivity.
Defined.

(** The font globals are resolved when the module is loaded: on [denied_fs]
    the load raises, and no diagram is rendered. *)
Lemma load_fonts_stops_at_failed_probe (B : Backend)
  (render : Fonts -> result (string * Image)) :
  load_fonts denied_fs = Raise OSError /\
  run render denied_fs = Raise OSError.
Proof. split; reflexivity. Qed.

(** C9. The [bold] argument does not reach the result: on a fixed file
    system, [font(size, bold=True)] and [font(size, bold=False)] return the
    same handle, so headings and body text of one size share one face. *)
Theorem font_bold_ignored (fs : FileSystem) (size : Z) :
  font fs size true = font fs size false.
Proof. reflexivity. Qed.

(** ** What the composite shapes draw *)

Lemma draws_call (op : DrawOp) : draws (call op) [op].
Proof. intros img. reflexivity. Qed.

Lemma draws_ret : draws (ret tt) [].
Proof. intros img. unfold ret. rewrite app_nil_r. reflexivity. Qed.

Lemma draws_seq (m k : Draw (B := Recorder) unit) (ops1 ops2 : list DrawOp) :
  draws m ops1 -> draws k ops2 -> draws (m ;; k) (ops1 ++ ops2).
Proof.
  intros Hm Hk img. unfold seq, bind.
  rewrite Hm, Hk, app_assoc. reflexivity.
Qed.

Lemma draws_two (a b : DrawOp) : draws (call a ;; call b) [a; b].
Proof. apply (draws_seq _ _ [a] [b]); apply draws_call. Qed.

Lemma draws_one (a : DrawOp) : draws (call a ;; ret tt) [a].
Proof. apply (draws_seq _ _ [a] []); [apply draws_call | apply draws_ret]. Qed.

(** C2. [arrow] draws the line from [(x1,y1)] to [(x2,y2)] and then one
    triangle with its tip at [(x2,y2)].  When [x2 >= x1], the tie
    [x1 = x2] included, the base corners are [(x2-14, y2-8)] and
    [(x2-14, y2+8)]; when [x2 < x1] they are [(x2+14, y2-8)] and
    [(x2+14, y2+8)].  In particular [arrow(336,310,390,310)] draws the
    triangle [(390,310)], [(376,302)], [(376,318)]. *)
Theorem arrow_orientation (x1 y1 x2 y2 : Z) (color : option Color) :
  let c := match color with Some c => c | None => BLUE end in
  (x2 >= x1 ->
   draws (arrow x1 y1 x2 y2 color)
         [ Line [(x1, y1); (x2, y2)] c 4;
           Polygon [(x2, y2); (x2 - 14, y2 - 8); (x2 - 14, y2 + 8)] c ]) /\
  (x2 < x1 ->
   draws (arrow x1 y1 x2 y2 color)
         [ Line [(x1, y1); (x2, y2)] c 4;
           Polygon [(x2, y2); (x2 + 14, y2 - 8); (x2 + 14, y2 + 8)] c ]) /\
  draws (arrow 336 310 390 310 color)
        [ Line [(336, 310); (390, 310)] c 4;
          Polygon [(390, 310); (376, 302); (376, 318)] c ].
Proof.
  intros c. repeat split.
  - intros Hge. unfold arrow, line, polygon. fold c.
    destruct (Z.geb_spec x2 x1) as [_ | Hlt]; [apply draws_two | lia].
  - intros Hlt. unfold arrow, line, polygon. fold c.
    destruct (Z.geb_spec x2 x1) as [Hge | _]; [lia | apply draws_two].
  - apply draws_two.
Qed.

(** A vertical arrow takes the rightward branch, and a right-to-left arrow
    the leftward one. *)
Lemma arrow_orientation_witness :
  draws (arrow 500 100 500 300 None)
        [ Line [(500, 100); (500, 300)] BLUE 4;
          Polygon [(500, 300); (486, 292); (486, 308)] BLUE ] /\
  draws (arrow 390 310 336 310 (Some RED))
        [ Line [(390, 310); (336, 310)] RED 4;
          Polygon [(336, 310); (350, 302); (350, 318)] RED ].
Proof.
  split.
  - apply (proj1 (arrow_orientation 500 100 500 300 None)). lia.
  - apply (proj1 (proj2 (arrow_orientation 390 310 336 310 (Some RED)))). lia.
Defined.

(** C7. [bullet] draws a filled circle of diameter 10 with bounding box
    [(x, y+8, x+10, y+18)] in the given colour, then the label at
    [(x+18, y)] in the theme text colour and the body font.  An omitted
    colour is [GREEN]. *)
Theorem bullet_draws (F : Fonts) (x y : Z) (s : string)
  (color : option Color) :
  let c := match color with Some c => c | None => GREEN end in
  draws (bullet F x y s color)
        [ Ellipse (x, y + 8, x + 10, y + 18) c;
          Text (x + 18, y) s TEXT (F_BODY F) ] /\
  (x + 10) - x = 10 /\ (y + 18) - (y + 8) = 10 /\
  draws (bullet F x y s None)
        [ Ellipse (x, y + 8, x + 10, y + 18) GREEN;
          Text (x + 18, y) s TEXT (F_BODY F) ].
Proof.
  intros c. repeat split; try lia; apply draws_two.
Qed.

(** C5, as stated, fails at the present but empty title: with bounds
    [(56,180,280,260)] and title [""] the only call is the rounded
    rectangle. *)
Lemma panel_empty_title_not_drawn :
  draws (panel default_fonts 56 180 280 260 (Some ""))
        [ RoundedRectangle (56, 180, 336, 440) 20
                           (Some SURFACE) (Some BORDER) 2 ] /\
  ~ panel_draws_every_title.
Proof.
  split.
  - apply draws_one.
  - intros Hall.
    specialize (Hall default_fonts 56 180 280 260 "" ltac:(lia) ltac:(lia) []).
    discriminate Hall.
Qed.

(** C5, amended.  For [w > 0], [h > 0] and every non-empty title, [panel]
    draws exactly one rounded rectangle, on the box [(x, y, x+w, y+h)] with
    radius 20 and a 2-pixel outline, and then the title at [(x+20, y+14)] in
    the heading font. *)
Theorem panel_draws (F : Fonts) (x y w h : Z) (title : string) :
  w > 0 -> h > 0 -> title <> "" ->
  draws (panel F x y w h (Some title))
        [ RoundedRectangle (x, y, x + w, y + h) 20
                           (Some SURFACE) (Some BORDER) 2;
          Text (x + 20, y + 14) title TEXT (F_H3 F) ].
Proof.
  intros _ _ Hne. destruct title as [|a s]; [congruence | apply draws_two].
Qed.

(** The panel ["Clients"] on [(56,180,280,260)]: box [(56,180,336,440)],
    title anchored at [(76,194)]. *)
Lemma panel_draws_witness :
  draws (panel default_fonts 56 180 280 260 (Some "Clients"))
        [ RoundedRectangle (56, 180, 336, 440) 20
                           (Some SURFACE) (Some BORDER) 2;
          Text (76, 194) "Clients" TEXT DefaultFont ].
Proof.
  apply (panel_draws default_fonts 56 180 280 260 "Clients");
    [lia | lia | discriminate].
Defined.

(** C10. An empty title is treated as an absent one: on every backend
    [panel(..., "")] behaves as [panel(...)] without title, and what it draws
    is the rounded rectangle alone. *)
Theorem panel_empty_title (F : Fonts) (x y w h : Z) :
  (forall (B : Backend) (img : Image),
     panel F x y w h (Some "") img = panel F x y w h None img) /\
  draws (panel F x y w h (Some ""))
        [ RoundedRectangle (x, y, x + w, y + h) 20
                           (Some SURFACE) (Some BORDER) 2 ] /\
  (forall title : string,
     truthy (Some title) = true <-> title <> "").
Proof.
  split; [|split].
  - intros B img. reflexivity.
  - apply draws_one.
  - intros title. destruct title; simpl; split; congruence.
Qed.

(** ** Geometry is not validated by [panel] *)

(** C3, as stated, fails: even on the backend that rejects disordered boxes,
    a panel of width 0 and height 0 completes and draws a degenerate
    shape. *)
Lemma panel_zero_size_completes :
  panel (B := StrictRecorder) default_fonts 56 180 0 0 (Some "Clients") [] =
    Ok (tt, [ RoundedRectangle (56, 180, 56, 180) 20
                               (Some SURFACE) (Some BORDER) 2;
              Text (76, 194) "Clients" TEXT DefaultFont ]) /\
  ~ panel_rejects_degenerate.
Proof.
  split; [reflexivity|].
  intros Hall.
  destruct (Hall StrictRecorder default_fonts 56 180 0 0 (Some "Clients") []
                 ltac:(left; lia)) as [e He].
  discriminate He.
Qed.

(** [panel] has no geometry check of its own.  On any backend it raises
    exactly when one of its drawing calls raises: the rounded rectangle on
    [(x, y, x+w, y+h)], or, for a non-empty title, the title text drawn after
    it; the exception is the backend's and reaches the caller as it is. *)
Lemma panel_raises_iff (B : Backend) (F : Fonts) (x y w h : Z)
  (title : option string) (img : Image) (e : exn) :
  let box := RoundedRectangle (x, y, x + w, y + h) 20
                              (Some SURFACE) (Some BORDER) 2 in
  let label := Text (x + 20, y + 14)
                    (match title with Some s => s | None => "" end)
                    TEXT (F_H3 F) in
  panel F x y w h title img = Raise e <->
  perform box img = Raise e \/
  (truthy title = true /\
   exists img', perform box img = Ok img' /\ perform label img' = Raise e).
Proof.
  intros box label.
  unfold panel, seq, bind, rounded_rectangle, text, call, ret.
  fold box. fold label.
  destruct (perform box img) as [img1|e1].
  - destruct (truthy title).
    + destruct (perform label img1) as [img2|e2] eqn:Hlabel.
      * split; [discriminate|].
        intros [Hbox | [_ [img' [Hbox Hl]]]]; [discriminate|].
        injection Hbox as <-. congruence.
      * split.
        -- intros Hr. right. split; [reflexivity|].
           exists img1. split; [reflexivity | congruence].
        -- intros [Hbox | [_ [img' [Hbox Hl]]]]; [discriminate|].
           injection Hbox as <-. congruence.
    + split; [discriminate|].
      intros [Hbox | [Ht _]]; discriminate.
  - split.
    + intros Hr. left. congruence.
    + intros [Hbox | [_ [img' [Hbox _]]]]; [congruence | discriminate].
Qed.

(** C3, amended.  With the coordinate check of the imaging library, every
    call of [panel] with a negative width or a negative height fails: the
    rounded rectangle raises [ValueError], which reaches the caller, and
    nothing is drawn.  Every call with [w >= 0] and [h >= 0], a zero width
    or height included, completes: it draws the rounded rectangle on
    [(x, y, x+w, y+h)], degenerate when [w] or [h] is zero, and the title
    when there is one.  So [panel] completes exactly when [w >= 0] and
    [h >= 0]. *)
Theorem panel_fails_iff_negative (F : Fonts) (x y w h : Z)
  (title : option string) (img : list DrawOp) :
  (w < 0 \/ h < 0 ->
   panel (B := StrictRecorder) F x y w h title img = Raise ValueError) /\
  (0 <= w -> 0 <= h ->
   panel (B := StrictRecorder) F x y w h title img =
     Ok (tt, img ++
             RoundedRectangle (x, y, x + w, y + h) 20
                              (Some SURFACE) (Some BORDER) 2
             :: match title with
                | Some (String a s) =>
                    [ Text (x + 20, y + 14) (String a s) TEXT (F_H3 F) ]
                | _ => []
                end)) /\
  ((exists out, panel (B := StrictRecorder) F x y w h title img = Ok out)
   <-> 0 <= w /\ 0 <= h).
Proof.
  assert (Hneg : w < 0 \/ h < 0 ->
            panel (B := StrictRecorder) F x y w h title img = Raise ValueError).
  { intros Hwh.
    unfold panel, seq, bind, rounded_rectangle, call.
    cbn [perform StrictRecorder checks_boxes box_ordered].
    replace ((x <=? x + w) && (y <=? y + h)) with false; [reflexivity|].
    symmetry. apply andb_false_iff.
    destruct Hwh as [Hw | Hh]; [left | right]; apply Z.leb_gt; lia. }
  assert (Hpos : 0 <= w -> 0 <= h ->
            panel (B := StrictRecorder) F x y w h title img =
              Ok (tt, img ++
                      RoundedRectangle (x, y, x + w, y + h) 20
                                       (Some SURFACE) (Some BORDER) 2
                      :: match title with
                         | Some (String a s) =>
                             [ Text (x + 20, y + 14) (String a s) TEXT
                                    (F_H3 F) ]
                         | _ => []
                         end)).
  { intros Hw Hh.
    unfold panel, seq, bind, rounded_rectangle, text, call, ret.
    cbn [perform StrictRecorder checks_boxes box_ordered].
    replace ((x <=? x + w) && (y <=? y + h)) with true
      by (symmetry; apply andb_true_iff; split; apply Z.leb_le; lia).
    destruct title as [[|a s]|]; cbn [truthy]; rewrite <- ?app_assoc;
      reflexivity. }
  split; [exact Hneg | split; [exact Hpos|]].
  split.
  - intros [out Hout].
    destruct (Z_lt_le_dec w 0) as [Hw | Hw];
      [rewrite Hneg in Hout by (left; exact Hw); discriminate|].
    destruct (Z_lt_le_dec h 0) as [Hh | Hh];
      [rewrite Hneg in Hout by (right; exact Hh); discriminate|].
    split; assumption.
  - intros [Hw Hh]. eexists. apply Hpos; assumption.
Qed.

(** The panel ["Clients"] of the architecture diagram: with its width
    negated the call raises [ValueError]; with a zero width and the height
    260 it completes and draws a box of no width. *)
Lemma panel_fails_iff_negative_witness :
  panel (B := StrictRecorder) default_fonts 56 180 (-280) 260
        (Some "Clients") [] = Raise ValueError /\
  panel (B := StrictRecorder) default_fonts 56 180 0 260
        (Some "Clients") [] =
    Ok (tt, [ RoundedRectangle (56, 180, 56, 440) 20
                               (Some SURFACE) (Some BORDER) 2;
              Text (76, 194) "Clients" TEXT DefaultFont ]).
Proof.
  split.
  - apply (proj1 (panel_fails_iff_negative default_fonts 56 180 (-280) 260
                                           (Some "Clients") [])).
    left. lia.
  - apply (proj1 (proj2 (panel_fails_iff_negative default_fonts 56 180 0 260
                                                  (Some "Clients") []))); lia.
Defined.

(** ** The chart of [render_leak_detection] on its literals *)

(** C1, as stated, fails: the last point [(0.93, 0.40)] does not map to
    [(1358, 680)].  [0.93 * 1360] is [1264.8], [int] gives [1264], and
    [92 + 1264] is [1356]. *)
Lemma chart_last_endpoint_is_not_1358 :
  to_pixel 92 1360 (decimal 93 2) = Ok 1356 /\
  to_xy 92 560 1360 300
        [ (decimal 5 2, decimal 78 2); (decimal 93 2, decimal 40 2) ]
    <> Ok [ (160, 794); (1358, 680) ].
Proof. split; [vm_compute; reflexivity | vm_compute; discriminate]. Qed.

(** C1, amended.  The points [(0.05,0.78)] and [(0.93,0.40)], the first and
    last of [points_local], map into the bounds [(92,560,1360,300)] as the
    pixels [(160,794)] and [(1356,680)]; these are the endpoints of the
    polyline that [render_leak_detection] strokes in green. *)
Theorem chart_endpoints :
  to_xy 92 560 1360 300
        [ (decimal 5 2, decimal 78 2); (decimal 93 2, decimal 40 2) ]
    = Ok [ (160, 794); (1356, 680) ] /\
  hd_error points_local = Some (decimal 5 2, decimal 78 2) /\
  last points_local (S754_nan, S754_nan) = (decimal 93 2, decimal 40 2) /\
  exists mid : list Point,
    to_xy 92 560 1360 300 points_local
      = Ok ((160, 794) :: mid ++ [ (1356, 680) ]) /\
    forall F : Fonts, exists img : list DrawOp,
      render_leak_detection (B := Recorder) F
        = Ok ("infographic_leak_detection.png", img) /\
      In (Line ((160, 794) :: mid ++ [ (1356, 680) ]) GREEN 5) img.
Proof.
  split; [vm_compute; reflexivity|].
  split; [reflexivity|].
  split; [reflexivity|].
  exists [ (364, 770); (567, 734); (772, 722); (976, 704); (1180, 692) ].
  split; [vm_compute; reflexivity|].
  intros F. eexists. split.
  - vm_compute. reflexivity.
  - simpl. do 13 right. left. reflexivity.
Qed.

(** ** The fonts a diagram reads *)

(** No diagram reads [F_H2]: two font tables that agree on the other four
    handles give the same render. *)
Lemma render_uses_four_fonts (B : Backend) (F1 F2 : Fonts) :
  F_TITLE F1 = F_TITLE F2 -> F_H3 F1 = F_H3 F2 ->
  F_BODY F1 = F_BODY F2 -> F_CAP F1 = F_CAP F2 ->
  render_architecture F1 = render_architecture F2 /\
  render_security_model F1 = render_security_model F2 /\
  render_control_plane F1 = render_control_plane F2 /\
  render_leak_detection F1 = render_leak_detection F2.
Proof.
  destruct F1 as [t1 h1 k1 b1 c1], F2 as [t2 h2 k2 b2 c2]. simpl.
  intros -> -> -> ->.
  repeat split; reflexivity.
Qed.

(** ** The chart mapping on normalized points *)

Lemma nearest_even_cases (V k : Z) :
  0 <= k ->
  exists q r, V = q * 2 ^ k + r /\ 0 <= r < 2 ^ k /\
    (nearest_even V k = q \/ (nearest_even V k = q + 1 /\ 0 < r)).
Proof.
  intros Hk.
  assert (HP : 0 < 2 ^ k) by (apply Z.pow_pos_nonneg; lia).
  exists (V / 2 ^ k), (V mod 2 ^ k).
  pose proof (Z.div_mod V (2 ^ k) ltac:(lia)) as Hdm.
  pose proof (Z.mod_pos_bound V (2 ^ k) HP) as Hr.
  split; [lia|]. split; [lia|].
  unfold nearest_even.
  destruct (Z.compare_spec (2 * (V mod 2 ^ k)) (2 ^ k)).
  - destruct (Z.even (V / 2 ^ k)); [left; reflexivity | right; lia].
  - left; reflexivity.
  - right; lia.
Qed.

(** a grid point below [V] stays below the rounding, one above stays above *)
Lemma nearest_even_ge (V k j : Z) :
  0 <= k -> j * 2 ^ k <= V -> j <= nearest_even V k.
Proof.
  intros Hk Hj.
  assert (HP : 0 < 2 ^ k) by (apply Z.pow_pos_nonneg; lia).
  destruct (nearest_even_cases V k Hk) as (q & r & HV & Hr & Hc).
  assert (j <= q) by nia.
  lia.
Qed.

Lemma nearest_even_le (V k j : Z) :
  0 <= k -> V <= j * 2 ^ k -> nearest_even V k <= j.
Proof.
  intros Hk Hj.
  assert (HP : 0 < 2 ^ k) by (apply Z.pow_pos_nonneg; lia).
  destruct (nearest_even_cases V k Hk) as (q & r & HV & Hr & Hc).
  destruct Hc as [-> | [-> Hpos]]; nia.
Qed.

Lemma nearest_even_mono (V1 V2 k : Z) :
  0 <= k -> V1 <= V2 -> nearest_even V1 k <= nearest_even V2 k.
Proof.
  intros Hk HV.
  assert (HP : 0 < 2 ^ k) by (apply Z.pow_pos_nonneg; lia).
  pose proof (Z.div_le_mono V1 V2 (2 ^ k) HP HV) as Hq.
  pose proof (Z.div_mod V1 (2 ^ k) ltac:(lia)) as Hdm1.
  pose proof (Z.div_mod V2 (2 ^ k) ltac:(lia)) as Hdm2.
  pose proof (Z.mod_pos_bound V1 (2 ^ k) HP) as Hr1.
  pose proof (Z.mod_pos_bound V2 (2 ^ k) HP) as Hr2.
  unfold nearest_even.
  destruct (Z.eq_dec (V1 / 2 ^ k) (V2 / 2 ^ k)) as [Heq | Hne].
  - rewrite Heq in *.
    assert (V1 mod 2 ^ k <= V2 mod 2 ^ k) by lia.
    destruct (Z.compare_spec (2 * (V1 mod 2 ^ k)) (2 ^ k));
      destruct (Z.compare_spec (2 * (V2 mod 2 ^ k)) (2 ^ k));
      destruct (Z.even (V2 / 2 ^ k)); lia.
  - destruct (Z.compare_spec (2 * (V1 mod 2 ^ k)) (2 ^ k));
      destruct (Z.compare_spec (2 * (V2 mod 2 ^ k)) (2 ^ k));
      destruct (Z.even (V1 / 2 ^ k)); destruct (Z.even (V2 / 2 ^ k)); lia.
Qed.

Lemma nearest_even_exact (V k : Z) :
  0 <= k -> V mod 2 ^ k = 0 -> nearest_even V k * 2 ^ k = V.
Proof.
  intros Hk Hmod.
  assert (HP : 0 < 2 ^ k) by (apply Z.pow_pos_nonneg; lia).
  pose proof (Z.div_mod V (2 ^ k) ltac:(lia)) as Hdm.
  unfold nearest_even. rewrite Hmod.
  destruct (Z.compare_spec (2 * 0) (2 ^ k)); lia.
Qed.

Section Fix.
Variables prec G : Z.
Hypothesis Hprec : 0 < prec.
Hypothesis HG : 0 <= G.

Lemma grid_nonneg V : 0 <= grid prec G V.
Proof. unfold grid. lia. Qed.

Lemma round_fix_nonneg V : 0 <= V -> 0 <= round_fix prec G V.
Proof.
  intros HV. unfold round_fix.
  pose proof (grid_nonneg V) as Hk.
  assert (HP : 0 < 2 ^ grid prec G V) by (apply Z.pow_pos_nonneg; lia).
  pose proof (nearest_even_ge V (grid prec G V) 0 Hk ltac:(lia)). nia.
Qed.

(** a power of two on the grid of [V] bounds the rounding like it bounds [V] *)
Lemma round_fix_le_pow (V t : Z) :
  grid prec G V <= t -> V <= 2 ^ t -> round_fix prec G V <= 2 ^ t.
Proof.
  intros Ht HV. unfold round_fix.
  pose proof (grid_nonneg V) as Hk.
  set (k := grid prec G V) in *.
  assert (HP : 0 < 2 ^ k) by (apply Z.pow_pos_nonneg; lia).
  assert (Hsplit : 2 ^ t = 2 ^ (t - k) * 2 ^ k)
    by (rewrite <- Z.pow_add_r by lia; f_equal; lia).
  pose proof (nearest_even_le V k (2 ^ (t - k)) Hk ltac:(lia)). nia.
Qed.

Lemma round_fix_ge_pow (V t : Z) :
  grid prec G V <= t -> 2 ^ t <= V -> 2 ^ t <= round_fix prec G V.
Proof.
  intros Ht HV. unfold round_fix.
  pose proof (grid_nonneg V) as Hk.
  set (k := grid prec G V) in *.
  assert (HP : 0 < 2 ^ k) by (apply Z.pow_pos_nonneg; lia).
  assert (Hsplit : 2 ^ t = 2 ^ (t - k) * 2 ^ k)
    by (rewrite <- Z.pow_add_r by lia; f_equal; lia).
  pose proof (nearest_even_ge V k (2 ^ (t - k)) Hk ltac:(lia)). nia.
Qed.

Lemma round_fix_0 : round_fix prec G 0 = 0.
Proof.
  unfold round_fix, nearest_even.
  pose proof (grid_nonneg 0) as Hk.
  assert (HP : 0 < 2 ^ grid prec G 0) by (apply Z.pow_pos_nonneg; lia).
  rewrite Z.mod_0_l, Z.div_0_l by lia.
  destruct (Z.compare_spec (2 * 0) (2 ^ grid prec G 0)); simpl; lia.
Qed.

Lemma round_fix_mono (V1 V2 : Z) :
  0 <= V1 -> V1 <= V2 -> round_fix prec G V1 <= round_fix prec G V2.
Proof.
  intros H0 HV.
  destruct (Z.eq_dec V1 0) as [-> | Hpos1].
  { rewrite round_fix_0. apply round_fix_nonneg. lia. }
  assert (Hl : Z.log2 V1 <= Z.log2 V2) by (apply Z.log2_le_mono; lia).
  pose proof (Z.log2_spec V1 ltac:(lia)) as Hs1.
  pose proof (Z.log2_spec V2 ltac:(lia)) as Hs2.
  pose proof (Z.log2_nonneg V1) as Hn1.
  pose proof (Z.log2_nonneg V2) as Hn2.
  destruct (Z.eq_dec (grid prec G V1) (grid prec G V2)) as [Heq | Hne].
  - unfold round_fix. rewrite Heq.
    pose proof (grid_nonneg V2) as Hk.
    assert (HP : 0 < 2 ^ grid prec G V2) by (apply Z.pow_pos_nonneg; lia).
    apply Z.mul_le_mono_nonneg_r; [lia|].
    apply nearest_even_mono; lia.
  - assert (Hlt : grid prec G V1 < grid prec G V2) by (unfold grid in *; lia).
    set (t := Z.max (Z.log2 V1 + 1) (grid prec G V1)).
    assert (Ht2 : t <= Z.log2 V2) by (unfold t, grid in *; lia).
    assert (H1 : round_fix prec G V1 <= 2 ^ t).
    { apply round_fix_le_pow; [unfold t; lia|].
      assert (2 ^ Z.succ (Z.log2 V1) <= 2 ^ t)
        by (apply Z.pow_le_mono_r; unfold t; lia).
      lia. }
    assert (H2 : 2 ^ Z.log2 V2 <= round_fix prec G V2).
    { apply round_fix_ge_pow; [unfold grid in *; lia | lia]. }
    assert (2 ^ t <= 2 ^ Z.log2 V2) by (apply Z.pow_le_mono_r; lia).
    lia.
Qed.

End Fix.

Lemma iter_pos_nat {A : Type} (f : A -> A) (p : positive) (x : A) :
  iter_pos f p x = Nat.iter (Pos.to_nat p) f x.
Proof.
  revert x. induction p as [p IH | p IH |]; intros x; cbn [iter_pos].
  - rewrite !IH, Pos2Nat.inj_xI.
    replace (S (2 * Pos.to_nat p))%nat
      with (Pos.to_nat p + S (Pos.to_nat p))%nat by lia.
    rewrite Nat.iter_add, Nat.iter_succ_r. reflexivity.
  - rewrite !IH, Pos2Nat.inj_xO.
    replace (2 * Pos.to_nat p)%nat
      with (Pos.to_nat p + Pos.to_nat p)%nat by lia.
    rewrite Nat.iter_add. reflexivity.
  - reflexivity.
Qed.

Lemma shr_inv_start (m : Z) :
  0 <= m -> shr_inv m 0 {| shr_m := m; shr_r := false; shr_s := false |}.
Proof.
  intros Hm. split; [exact Hm|]. exists 0. simpl. lia.
Qed.

Lemma shr_inv_step (m k : Z) (rec : shr_record) :
  0 <= k -> shr_inv m k rec -> shr_inv m (k + 1) (shr_1 rec).
Proof.
  intros Hk [Hq (rem & Hm & Hrem & Hloc)].
  assert (HP : 0 < 2 ^ k) by (apply Z.pow_pos_nonneg; lia).
  assert (HP' : 2 ^ (k + 1) = 2 * 2 ^ k) by (rewrite Z.pow_add_r; lia).
  destruct rec as [q r s]. unfold shr_inv.
  cbn [shr_m shr_r shr_s] in *.
  destruct q as [|[p|p|]|p]; cbn [shr_1 shr_m shr_r shr_s].
  - split; [lia|]. exists rem. rewrite HP'.
    destruct r, s; cbn [loc_matches orb] in *; lia.
  - split; [lia|]. exists (2 ^ k + rem). rewrite HP'.
    rewrite Pos2Z.inj_xI in Hm.
    destruct r, s; cbn [loc_matches orb] in *; lia.
  - split; [lia|]. exists rem. rewrite HP'.
    rewrite Pos2Z.inj_xO in Hm.
    destruct r, s; cbn [loc_matches orb] in *; lia.
  - split; [lia|]. exists (2 ^ k + rem). rewrite HP'.
    destruct r, s; cbn [loc_matches orb] in *; lia.
  - lia.
Qed.

Lemma shr_inv_iter (m : Z) (n : nat) :
  0 <= m ->
  shr_inv m (Z.of_nat n)
    (Nat.iter n shr_1 {| shr_m := m; shr_r := false; shr_s := false |}).
Proof.
  intros Hm. induction n as [|n IH].
  - apply shr_inv_start, Hm.
  - rewrite Nat2Z.inj_succ. unfold Z.succ. cbn [Nat.iter nat_rect].
    apply shr_inv_step; [lia | exact IH].
Qed.

Lemma shr_inv_round (m k : Z) (rec : shr_record) :
  0 <= k -> shr_inv m k rec ->
  round_nearest_even (shr_m rec) (loc_of_shr_record rec) = nearest_even m k.
Proof.
  intros Hk [Hq (rem & Hm & Hrem & Hloc)].
  assert (HP : 0 < 2 ^ k) by (apply Z.pow_pos_nonneg; lia).
  assert (Hdiv : m / 2 ^ k = shr_m rec)
    by (symmetry; apply (Z.div_unique m (2 ^ k) (shr_m rec) rem); lia).
  assert (Hmod : m mod 2 ^ k = rem)
    by (symmetry; apply (Z.mod_unique m (2 ^ k) (shr_m rec) rem); lia).
  unfold nearest_even. rewrite Hdiv, Hmod.
  destruct rec as [q r s].
  cbn [shr_m shr_r shr_s] in *.
  destruct r, s;
    cbn [loc_matches loc_of_shr_record round_nearest_even] in *;
    destruct (Z.compare_spec (2 * rem) (2 ^ k)); try lia; reflexivity.
Qed.

Lemma Zdigits2_log2 (m : Z) : 0 < m -> Zdigits2 m = Z.log2 m + 1.
Proof.
  destruct m as [|p|p]; try lia. intros _. simpl.
  induction p as [p IH | p IH |]; simpl in *.
  - rewrite Pos2Z.inj_succ. destruct p; simpl in *; lia.
  - rewrite Pos2Z.inj_succ. destruct p; simpl in *; lia.
  - reflexivity.
Qed.

Lemma nearest_even_0 (m : Z) : nearest_even m 0 = m.
Proof.
  unfold nearest_even. rewrite Z.pow_0_r, Z.mod_1_r, Z.div_1_r. reflexivity.
Qed.

Lemma nearest_even_scale (m k s : Z) :
  0 <= k -> 0 <= s -> nearest_even (m * 2 ^ s) (k + s) = nearest_even m k.
Proof.
  intros Hk Hs. unfold nearest_even.
  assert (0 < 2 ^ s) by (apply Z.pow_pos_nonneg; lia).
  assert (0 < 2 ^ k) by (apply Z.pow_pos_nonneg; lia).
  rewrite Z.pow_add_r by lia.
  rewrite Z.div_mul_cancel_r by lia.
  rewrite Z.mul_mod_distr_r by lia.
  rewrite Z.mul_assoc.
  rewrite <- (Zmult_compare_compat_r (2 * (m mod 2 ^ k)) (2 ^ k) (2 ^ s))
    by lia.
  reflexivity.
Qed.

Section Link.
Variables prec emax N : Z.
Hypothesis Hprec : 0 < prec.
Hypothesis HN : 0 <= emin prec emax + N.

Local Abbreviation G := (emin prec emax + N).

(** The first normalisation: the mantissa is cut to the grid and rounded. *)
Lemma shr_fexp_round (m e : Z) :
  0 < m ->
  let E := fexp prec emax (Zdigits2 m + e) in
  exists rec e',
    shr_fexp prec emax m e loc_Exact = (rec, e') /\
    let q := round_nearest_even (shr_m rec) (loc_of_shr_record rec) in
    Z.max E e = e' /\
    q = nearest_even m (e' - e).
Proof.
  intros Hm E. unfold shr_fexp. fold E.
  cbn [shr_record_of_loc]. unfold shr.
  destruct (E - e) as [|p|p] eqn:Hk.
  - eexists _, _. split; [reflexivity|]. cbn [shr_m loc_of_shr_record round_nearest_even].
    split; [lia|]. replace (e - e) with 0 by lia.
    symmetry. apply nearest_even_0.
  - eexists _, _. split; [reflexivity|].
    split; [lia|].
    rewrite iter_pos_nat.
    replace (e + Z.pos p - e) with (Z.of_nat (Pos.to_nat p))
      by (rewrite positive_nat_Z; lia).
    apply shr_inv_round; [lia|].
    apply shr_inv_iter. lia.
  - eexists _, _. split; [reflexivity|]. cbn [shr_m loc_of_shr_record round_nearest_even].
    split; [lia|]. replace (e - e) with 0 by lia.
    symmetry. apply nearest_even_0.
Qed.

(** The second normalisation keeps the value: it only moves a mantissa that
    rounding carried to [2^prec] back into range. *)
Lemma shr_fexp_renorm (q e : Z) :
  0 <= q <= 2 ^ prec -> emin prec emax <= e ->
  exists rec e',
    shr_fexp prec emax q e loc_Exact = (rec, e') /\
    0 <= shr_m rec /\ e <= e' /\ shr_m rec * 2 ^ (e' - e) = q.
Proof.
  intros Hq He. unfold shr_fexp. cbn [shr_record_of_loc]. unfold shr.
  assert (Hpow : 2 ^ prec = 2 * 2 ^ (prec - 1)).
  { replace prec with (1 + (prec - 1)) at 1 by lia.
    rewrite Z.pow_add_r by lia. reflexivity. }
  assert (0 < 2 ^ (prec - 1)) by (apply Z.pow_pos_nonneg; lia).
  destruct (Z.eq_dec q 0) as [-> | Hq0].
  { cbn [Zdigits2]. unfold fexp.
    destruct (Z.max (0 + e - prec) (emin prec emax) - e) as [|p|p] eqn:Hk;
      try lia; eexists _, _; (split; [reflexivity|]);
      cbn [shr_m]; repeat split; lia. }
  rewrite Zdigits2_log2 by lia.
  pose proof (Z.log2_spec q ltac:(lia)) as Hlog.
  pose proof (Z.log2_nonneg q) as Hlog0.
  destruct (Z.eq_dec q (2 ^ prec)) as [-> | Hq1].
  - rewrite Z.log2_pow2 by lia. unfold fexp.
    replace (Z.max (prec + 1 + e - prec) (emin prec emax) - e) with 1 by lia.
    eexists _, _. split; [reflexivity|].
    cbn [iter_pos].
    pose proof (shr_inv_step (2 ^ prec) 0 _ ltac:(lia)
                  (shr_inv_start (2 ^ prec) ltac:(lia))) as [Hm' (rem & Hv & Hr & _)].
    cbn [Z.add] in Hv, Hr. rewrite Z.pow_1_r in Hv, Hr.
    replace (e + 1 - e) with 1 by lia. rewrite Z.pow_1_r.
    repeat split; lia.
  - assert (Hlt : Z.log2 q < prec).
    { apply Z.log2_lt_pow2; lia. }
    unfold fexp.
    destruct (Z.max (Z.log2 q + 1 + e - prec) (emin prec emax) - e)
      as [|p|p] eqn:Hk; try lia;
      eexists _, _; (split; [reflexivity|]); cbn [shr_m];
      replace (e - e) with 0 by lia; rewrite Z.pow_0_r; repeat split; lia.
Qed.

Lemma grid_scaled (m : positive) (e : Z) :
  0 <= e + N ->
  grid prec G (Z.pos m * 2 ^ (e + N))
  = fexp prec emax (Zdigits2 (Z.pos m) + e) + N.
Proof.
  intros He. unfold grid, fexp.
  rewrite Z.log2_mul_pow2 by lia.
  rewrite Zdigits2_log2 by lia. lia.
Qed.

(** [binary_round_aux] on an exact positive value, read on the fixed-point
    scale [2^-N]. *)
Lemma binary_round_aux_fix (m : positive) (e : Z) :
  0 <= e + N ->
  let V := Z.pos m * 2 ^ (e + N) in
  match binary_round_aux prec emax false (Z.pos m) e loc_Exact with
  | S754_zero false => round_fix prec G V = 0
  | S754_finite false m' e' =>
      Z.pos m' * 2 ^ (e' + N) = round_fix prec G V /\
      grid prec G V <= e' + N /\ e' <= emax - prec
  | S754_infinity false => 2 ^ (emax - prec + 1 + N) <= round_fix prec G V
  | _ => False
  end.
Proof.
  intros He V.
  pose proof (grid_scaled m e He) as Hgrid. fold V in Hgrid.
  set (E := fexp prec emax (Zdigits2 (Z.pos m) + e)) in *.
  assert (HEmin : emin prec emax <= E) by (unfold E, fexp; lia).
  unfold binary_round_aux.
  destruct (shr_fexp_round (Z.pos m) e ltac:(lia))
    as (rec1 & e1 & -> & He1 & Hq1).
  fold E in He1.
  set (q := round_nearest_even (shr_m rec1) (loc_of_shr_record rec1)) in *.
  assert (Hval : q * 2 ^ (e1 + N) = round_fix prec G V).
  { unfold round_fix. rewrite Hgrid, Hq1.
    destruct (Z.max_spec E e) as [[Hlt Hmax] | [Hle Hmax]].
    - replace (e1 - e) with 0 by lia.
      replace (e1 + N) with (e + N) by lia.
      rewrite nearest_even_0.
      rewrite nearest_even_exact; [reflexivity | lia |].
      unfold V. replace (e + N) with ((e - E) + (E + N)) by lia.
      rewrite Z.pow_add_r, Z.mul_assoc by lia.
      apply Z.mod_mul.
      assert (0 < 2 ^ (E + N)) by (apply Z.pow_pos_nonneg; lia). lia.
    - replace (e1 - e) with (E - e) by lia.
      replace (e1 + N) with (E + N) by lia.
      f_equal. unfold V.
      replace (E + N) with ((E - e) + (e + N)) by lia.
      symmetry. apply nearest_even_scale; lia. }
  assert (Hqbound : 0 <= q <= 2 ^ prec).
  { rewrite Hq1.
    pose proof (Z.log2_spec (Z.pos m) ltac:(lia)) as Hlog.
    pose proof (Z.log2_nonneg (Z.pos m)) as Hlog0.
    assert (Hk : 0 <= e1 - e) by lia.
    split.
    - apply nearest_even_ge; lia.
    - assert (Hd : Z.log2 (Z.pos m) + 1 <= prec + (e1 - e)).
      { unfold E, fexp in He1. rewrite Zdigits2_log2 in He1 by lia. lia. }
      apply nearest_even_le; [lia|].
      rewrite <- Z.pow_add_r by lia.
      assert (2 ^ Z.succ (Z.log2 (Z.pos m)) <= 2 ^ (prec + (e1 - e)))
        by (apply Z.pow_le_mono_r; lia).
      lia. }
  destruct (shr_fexp_renorm q e1 Hqbound ltac:(lia))
    as (rec2 & e2 & -> & Hm2 & He2 & Hv2).
  assert (Hval2 : shr_m rec2 * 2 ^ (e2 + N) = round_fix prec G V).
  { rewrite <- Hval, <- Hv2.
    replace (e2 + N) with ((e2 - e1) + (e1 + N)) by lia.
    rewrite Z.pow_add_r by lia. ring. }
  destruct (shr_m rec2) as [|m2|m2] eqn:Hm2eq.
  - lia.
  - destruct (Z.leb_spec e2 (emax - prec)) as [Hfin | Hinf].
    + repeat split; lia.
    + rewrite <- Hval2.
      assert (2 ^ (emax - prec + 1 + N) <= 2 ^ (e2 + N))
        by (apply Z.pow_le_mono_r; lia).
      assert (0 < 2 ^ (e2 + N)) by (apply Z.pow_pos_nonneg; lia).
      nia.
  - lia.
Qed.

End Link.

Lemma iter_xO (m d : positive) :
  Z.pos (Pos.iter xO m d) = Z.pos m * 2 ^ Z.pos d.
Proof.
  induction d as [|d IH] using Pos.peano_ind.
  - cbn [Pos.iter]. rewrite Z.pow_1_r. lia.
  - rewrite Pos.iter_succ, Pos2Z.inj_xO, IH, Pos2Z.inj_succ.
    rewrite Z.pow_succ_r by lia. ring.
Qed.

Lemma shl_align_spec (mx : positive) (ex ex' : Z) :
  let '(mz, ez) := shl_align mx ex ex' in
  ez <= ex /\ Z.min ex ex' = ez /\ Z.pos mz = Z.pos mx * 2 ^ (ex - ez).
Proof.
  unfold shl_align.
  destruct (ex' - ex) as [|d|d] eqn:Hd.
  - replace (ex - ex) with 0 by lia. rewrite Z.pow_0_r. lia.
  - replace (ex - ex) with 0 by lia. rewrite Z.pow_0_r. lia.
  - rewrite iter_xO. replace (ex - ex') with (Z.pos d) by lia. lia.
Qed.

Lemma shiftl_fix (m e N : Z) :
  0 <= m -> 0 <= N -> 0 <= e + N -> Z.shiftl m e = (m * 2 ^ (e + N)) / 2 ^ N.
Proof.
  intros Hm HN He.
  assert (0 < 2 ^ N) by (apply Z.pow_pos_nonneg; lia).
  destruct (Z.le_gt_cases 0 e) as [Hpos | Hneg].
  - rewrite Z.shiftl_mul_pow2 by lia.
    rewrite Z.pow_add_r, Z.mul_assoc by lia.
    rewrite Z.div_mul by lia. reflexivity.
  - rewrite Z.shiftl_div_pow2 by lia.
    assert (0 < 2 ^ (e + N)) by (apply Z.pow_pos_nonneg; lia).
    replace (2 ^ N) with (2 ^ (- e) * 2 ^ (e + N))
      by (rewrite <- Z.pow_add_r by lia; f_equal; lia).
    rewrite Z.div_mul_cancel_r by lia. reflexivity.
Qed.

Section Chart.
Variables prec emax : Z.
Hypothesis Hprec : 0 < prec.
Hypothesis Hemax : 2 * prec <= emax.

Local Abbreviation M := (fix_scale prec emax).
Local Abbreviation N := (fix_scale prec emax + fix_scale prec emax).

Lemma emin_M : emin prec emax = - M.
Proof. unfold emin, fix_scale. lia. Qed.

Lemma M_nonneg : 0 <= M.
Proof. unfold fix_scale. lia. Qed.

(** an exactly representable integer rounds to itself *)
Lemma round_fix_int (G s w : Z) :
  0 <= G <= s -> 0 < w <= 2 ^ prec ->
  round_fix prec G (w * 2 ^ s) = w * 2 ^ s.
Proof.
  intros HG Hw. unfold round_fix.
  pose proof (Z.log2_spec w ltac:(lia)) as Hlog.
  pose proof (Z.log2_nonneg w) as Hlog0.
  assert (Hgrid : grid prec G (w * 2 ^ s) = Z.max (Z.log2 w + s + 1 - prec) G).
  { unfold grid. rewrite Z.log2_mul_pow2 by lia. f_equal. lia. }
  rewrite Hgrid.
  set (k := Z.max (Z.log2 w + s + 1 - prec) G).
  apply nearest_even_exact; [unfold k; lia|].
  destruct (Z.le_gt_cases k s) as [Hks | Hks].
  - replace s with ((s - k) + k) by lia.
    rewrite Z.pow_add_r, Z.mul_assoc by (unfold k; lia).
    apply Z.mod_mul.
    assert (0 < 2 ^ k) by (apply Z.pow_pos_nonneg; unfold k; lia). lia.
  - assert (Hl : Z.log2 w = prec).
    { pose proof (Z.log2_le_mono w (2 ^ prec) ltac:(lia)) as Hle.
      rewrite Z.log2_pow2 in Hle by lia.
      unfold k in Hks. lia. }
    assert (Hw2 : w = 2 ^ prec) by (rewrite Hl in Hlog; lia).
    assert (Hk : k = s + 1) by (unfold k; lia).
    rewrite Hk, Hw2.
    replace prec with ((prec - 1) + 1) at 1 by lia.
    rewrite Z.pow_add_r, <- Z.mul_assoc by lia.
    rewrite <- Z.pow_add_r by lia. replace (1 + s) with (s + 1) by lia.
    apply Z.mod_mul.
    assert (0 < 2 ^ (s + 1)) by (apply Z.pow_pos_nonneg; lia). lia.
Qed.

(** [int] to [float] is exact up to [2^prec] *)
Lemma float_of_int_fix (w : Z) :
  0 < w <= 2 ^ prec ->
  exists mw ew,
    binary_normalize prec emax w 0 false = S754_finite false mw ew /\
    Z.pos mw * 2 ^ (ew + M) = w * 2 ^ M /\ 0 <= ew + M.
Proof.
  intros Hw. pose proof M_nonneg as HM.
  destruct w as [|pw|pw]; try lia.
  unfold binary_normalize, binary_round.
  pose proof (shl_align_spec pw 0 (fexp prec emax (Z.pos (digits2_pos pw) + 0)))
    as Hal.
  destruct (shl_align pw 0 (fexp prec emax (Z.pos (digits2_pos pw) + 0)))
    as [mz ez].
  destruct Hal as (Hez & Hmin & Hmz).
  assert (HezM : 0 <= ez + M).
  { unfold fexp in Hmin. rewrite emin_M in Hmin. lia. }
  pose proof (binary_round_aux_fix prec emax M Hprec
                ltac:(rewrite emin_M; lia) mz ez HezM) as Hfix.
  cbv zeta in Hfix.
  assert (HV : Z.pos mz * 2 ^ (ez + M) = Z.pos pw * 2 ^ M).
  { rewrite Hmz. rewrite <- Z.mul_assoc, <- Z.pow_add_r by lia.
    f_equal. f_equal. lia. }
  rewrite HV in Hfix.
  replace (emin prec emax + M) with 0 in Hfix by (rewrite emin_M; lia).
  rewrite round_fix_int in Hfix by lia.
  assert (HP : 0 < 2 ^ M) by (apply Z.pow_pos_nonneg; lia).
  destruct (binary_round_aux prec emax false (Z.pos mz) ez loc_Exact)
    as [[|]|[|]| |[|] m' e']; try contradiction.
  - nia.
  - exfalso.
    assert (Hup : Z.pos pw * 2 ^ M <= 2 ^ prec * 2 ^ M) by nia.
    rewrite <- Z.pow_add_r in Hup by lia.
    assert (2 ^ (prec + M) < 2 ^ (emax - prec + 1 + M))
      by (apply Z.pow_lt_mono_r; lia).
    lia.
  - destruct Hfix as (Hval & Hgrid & _).
    exists m', e'. split; [reflexivity|]. split; [exact Hval|].
    unfold grid in Hgrid. lia.
Qed.

Lemma scaled_pixel (x : float) (w : Z) :
  unit_float prec emax x -> 0 < w <= 2 ^ prec ->
  exists wf,
    binary_normalize prec emax w 0 false = wf /\
    (forall s, wf <> S754_infinity s) /\
    int_of_float (SFmul prec emax x wf) = Ok (pixel_offset prec emax w x).
Proof.
  intros Hx Hw. pose proof M_nonneg as HM.
  destruct (float_of_int_fix w Hw) as (mw & ew & Hconv & Hwval & Hew).
  exists (S754_finite false mw ew).
  split; [exact Hconv|]. split; [discriminate|].
  assert (HPM : 0 < 2 ^ M) by (apply Z.pow_pos_nonneg; lia).
  assert (HPN : 0 < 2 ^ N) by (apply Z.pow_pos_nonneg; lia).
  destruct x as [s|s| |[|] m e]; try contradiction.
  - cbn [SFmul int_of_float]. unfold pixel_offset. cbn [fix_val].
    rewrite !Z.mul_0_l, round_fix_0, Z.div_0_l by lia. reflexivity.
  - destruct Hx as [He Hle].
    cbn [SFmul xorb]. unfold pixel_offset. cbn [fix_val].
    assert (HeN : 0 <= e + ew + N) by (lia).
    pose proof (binary_round_aux_fix prec emax N Hprec
                  ltac:(rewrite emin_M; lia) (m * mw) (e + ew) HeN)
      as Hfix.
    cbv zeta in Hfix.
    replace (emin prec emax + N) with M in Hfix
      by (rewrite emin_M; lia).
    assert (HV : Z.pos (m * mw) * 2 ^ (e + ew + N)
                 = Z.pos m * 2 ^ (e + M) * w * 2 ^ M).
    { rewrite Pos2Z.inj_mul.
      replace (e + ew + N) with ((e + M) + (ew + M)) by (lia).
      rewrite Z.pow_add_r by lia.
      transitivity (Z.pos m * 2 ^ (e + M) * (w * 2 ^ M)); [|ring].
      rewrite <- Hwval. ring. }
    rewrite HV in Hfix.
    set (V := Z.pos m * 2 ^ (e + M) * w * 2 ^ M) in *.
    assert (HVpos : 0 < V).
    { unfold V. assert (0 < 2 ^ (e + M)) by (apply Z.pow_pos_nonneg; lia).
      apply Z.mul_pos_pos; [|lia].
      apply Z.mul_pos_pos; [|lia].
      apply Z.mul_pos_pos; lia. }
    assert (HVle : V <= 2 ^ (prec + N)).
    { replace (2 ^ (prec + N)) with (2 ^ M * 2 ^ prec * 2 ^ M)
        by (rewrite <- !Z.pow_add_r by lia; f_equal; lia).
      unfold V.
      assert (0 < 2 ^ (e + M)) by (apply Z.pow_pos_nonneg; lia).
      apply Z.mul_le_mono_nonneg_r; [lia|].
      apply Z.mul_le_mono_nonneg; lia. }
    assert (Hround : round_fix prec M V <= 2 ^ (prec + N)).
    { apply round_fix_le_pow; [lia | | exact HVle].
      pose proof (Z.log2_le_mono V (2 ^ (prec + N)) HVle) as Hl.
      rewrite Z.log2_pow2 in Hl by (lia).
      unfold grid in *. lia. }
    destruct (binary_round_aux prec emax false (Z.pos (m * mw)) (e + ew)
                               loc_Exact)
      as [[|]|[|]| |[|] m' e']; try contradiction.
    + cbn [int_of_float]. rewrite Hfix, Z.div_0_l by lia. reflexivity.
    + exfalso.
      assert (2 ^ (prec + N) < 2 ^ (emax - prec + 1 + N))
        by (apply Z.pow_lt_mono_r; lia).
      lia.
    + destruct Hfix as (Hval & Hgrid & _).
      cbn [int_of_float cond_Zopp].
      rewrite <- Hval. f_equal.
      apply shiftl_fix; [lia | lia | unfold grid in Hgrid; lia].
Qed.

Lemma pixel_offset_mono (w : Z) (x1 x2 : float) :
  0 < w -> 0 <= fix_val M x1 -> fix_val M x1 <= fix_val M x2 ->
  pixel_offset prec emax w x1 <= pixel_offset prec emax w x2.
Proof.
  intros Hw H0 Hle. pose proof M_nonneg as HM.
  assert (HPM : 0 < 2 ^ M) by (apply Z.pow_pos_nonneg; lia).
  assert (HPN : 0 < 2 ^ N) by (apply Z.pow_pos_nonneg; lia).
  unfold pixel_offset.
  apply Z.div_le_mono; [lia|].
  apply round_fix_mono; [lia | lia | |].
  - apply Z.mul_nonneg_nonneg; [|lia].
    apply Z.mul_nonneg_nonneg; lia.
  - apply Z.mul_le_mono_nonneg_r; [lia|].
    apply Z.mul_le_mono_nonneg_r; [lia | exact Hle].
Qed.

Lemma fix_val_nonneg (x : float) : 0 <= fix_val M x.
Proof.
  destruct x as [s|s| |[|] m e]; cbn [fix_val]; try apply Z.le_refl.
  apply Z.mul_nonneg_nonneg; [lia|]. apply Z.pow_nonneg. lia.
Qed.

(** a canonical mantissa has at most [prec] bits, and exactly [prec] above
    the smallest exponent *)
Lemma bounded_spec (m : positive) (e : Z) :
  bounded prec emax m e = true ->
  0 <= e + M /\ Z.pos m < 2 ^ prec /\
  (0 < e + M -> 2 ^ (prec - 1) <= Z.pos m).
Proof.
  unfold bounded, canonical_mantissa. intros Hb.
  apply andb_prop in Hb. destruct Hb as [Hcan _].
  apply Z.eqb_eq in Hcan.
  change (Z.pos (digits2_pos m)) with (Zdigits2 (Z.pos m)) in Hcan.
  rewrite Zdigits2_log2 in Hcan by lia.
  unfold fexp in Hcan. rewrite emin_M in Hcan.
  pose proof (Z.log2_spec (Z.pos m) ltac:(lia)) as Hlog.
  pose proof (Z.log2_nonneg (Z.pos m)) as Hlog0.
  split; [lia|]. split.
  - assert (2 ^ Z.succ (Z.log2 (Z.pos m)) <= 2 ^ prec)
      by (apply Z.pow_le_mono_r; lia).
    lia.
  - intros He.
    assert (2 ^ (prec - 1) <= 2 ^ Z.log2 (Z.pos m))
      by (apply Z.pow_le_mono_r; lia).
    lia.
Qed.

Lemma SFleb_finite (m1 m2 : positive) (e1 e2 : Z) :
  SFleb (S754_finite false m1 e1) (S754_finite false m2 e2) = true ->
  e1 < e2 \/ (e1 = e2 /\ Z.pos m1 <= Z.pos m2).
Proof.
  unfold SFleb, SFcompare.
  destruct (Z.compare_spec e1 e2) as [Heq | Hlt | Hgt].
  - change (Pos.compare_cont Eq m1 m2) with (Pos.compare m1 m2).
    destruct (Pos.compare_spec m1 m2) as [Hm | Hm | Hm]; intros Hle;
      try discriminate; lia.
  - intros _. lia.
  - discriminate.
Qed.

Lemma SFleb_fix_val (x1 x2 : float) :
  valid_binary prec emax x1 = true -> valid_binary prec emax x2 = true ->
  unit_float prec emax x1 -> unit_float prec emax x2 ->
  SFleb x1 x2 = true -> fix_val M x1 <= fix_val M x2.
Proof.
  intros Hv1 Hv2 Hu1 Hu2 Hle.
  destruct x1 as [s1|s1| |[|] m1 e1]; try contradiction;
    [apply fix_val_nonneg|].
  destruct x2 as [s2|s2| |[|] m2 e2]; try contradiction;
    [discriminate Hle|].
  cbn [fix_val]. cbn [valid_binary] in Hv1, Hv2.
  destruct (bounded_spec m1 e1 Hv1) as (He1 & Hm1 & _).
  destruct (bounded_spec m2 e2 Hv2) as (He2 & _ & Hm2).
  assert (HP1 : 0 < 2 ^ (e1 + M)) by (apply Z.pow_pos_nonneg; lia).
  assert (HP2 : 0 < 2 ^ (e2 + M)) by (apply Z.pow_pos_nonneg; lia).
  destruct (SFleb_finite m1 m2 e1 e2 Hle) as [Hlt | [Heq Hm]].
  - specialize (Hm2 ltac:(lia)).
    assert (Hup : Z.pos m1 * 2 ^ (e1 + M) <= 2 ^ prec * 2 ^ (e1 + M))
      by (apply Z.mul_le_mono_nonneg_r; lia).
    assert (Hlow : 2 ^ (prec - 1) * 2 ^ (e2 + M) <= Z.pos m2 * 2 ^ (e2 + M))
      by (apply Z.mul_le_mono_nonneg_r; lia).
    rewrite <- Z.pow_add_r in Hup, Hlow by lia.
    assert (Hpow : 2 ^ (prec + (e1 + M)) <= 2 ^ (prec - 1 + (e2 + M)))
      by (apply Z.pow_le_mono_r; lia).
    lia.
  - subst e2. apply Z.mul_le_mono_nonneg_r; lia.
Qed.

Lemma pixel_offset_zero (w : Z) (s : bool) :
  pixel_offset prec emax w (S754_zero s) = 0.
Proof.
  pose proof M_nonneg as HM.
  unfold pixel_offset. cbn [fix_val].
  rewrite !Z.mul_0_l, round_fix_0 by lia. apply Z.div_0_l.
  assert (0 < 2 ^ N) by (apply Z.pow_pos_nonneg; lia). lia.
Qed.

(** The float [1.0], given by its mantissa [2^(prec-1)]. *)
Section One.
Variable one_m : positive.
Hypothesis Hone : Z.pos one_m = 2 ^ (prec - 1).

Local Abbreviation one := (S754_finite false one_m (1 - prec)).

Lemma unit_float_spec (x : float) :
  valid_binary prec emax x = true ->
  SFleb (S754_zero false) x = true -> SFleb x one = true ->
  unit_float prec emax x.
Proof.
  intros Hvalid H0 H1. pose proof M_nonneg as HM.
  destruct x as [s|[|]| |[|] m e]; try discriminate; cbn [unit_float].
  - exact I.
  - cbn [valid_binary] in Hvalid.
    destruct (bounded_spec m e Hvalid) as (He & Hm & _).
    split; [exact He|].
    assert (HP : 0 < 2 ^ (e + M)) by (apply Z.pow_pos_nonneg; lia).
    destruct (SFleb_finite m one_m e (1 - prec) H1) as [Hlt | [Heq Hle]].
    + assert (Hup : Z.pos m * 2 ^ (e + M) <= 2 ^ prec * 2 ^ (e + M))
        by (apply Z.mul_le_mono_nonneg_r; lia).
      rewrite <- Z.pow_add_r in Hup by lia.
      assert (Hpow : 2 ^ (prec + (e + M)) <= 2 ^ M)
        by (apply Z.pow_le_mono_r; lia).
      lia.
    + rewrite Hone in Hle.
      assert (Hup : Z.pos m * 2 ^ (e + M) <= 2 ^ (prec - 1) * 2 ^ (e + M))
        by (apply Z.mul_le_mono_nonneg_r; lia).
      rewrite <- Z.pow_add_r in Hup by lia.
      replace (prec - 1 + (e + M)) with M in Hup by lia.
      exact Hup.
Qed.

Lemma pixel_offset_one (w : Z) :
  0 < w <= 2 ^ prec -> pixel_offset prec emax w one = w.
Proof.
  intros Hw. pose proof M_nonneg as HM.
  assert (HPN : 0 < 2 ^ N) by (apply Z.pow_pos_nonneg; lia).
  assert (HMprec : prec - 1 <= M) by (unfold fix_scale; lia).
  unfold pixel_offset. cbn [fix_val].
  rewrite Hone, <- Z.pow_add_r by lia.
  replace (prec - 1 + (1 - prec + M)) with M by lia.
  replace (2 ^ M * w * 2 ^ M) with (w * 2 ^ N)
    by (rewrite Z.pow_add_r by lia; ring).
  rewrite round_fix_int by lia.
  apply Z.div_mul. lia.
Qed.

End One.

End Chart.

(** *** Binary64 *)

Lemma float_prec_pos : 0 < float_prec.
Proof. reflexivity. Qed.

Lemma float_emax_large : 2 * float_prec <= float_emax.
Proof. discriminate. Qed.

Lemma float_one_mantissa : Z.pos 4503599627370496 = 2 ^ (float_prec - 1).
Proof. reflexivity. Qed.

Lemma float_prec_pow : 2 ^ float_prec = 9007199254740992.
Proof. reflexivity. Qed.

(** The literals [0.0] and [1.0], and the int [1] as a float operand. *)
Lemma float_literals :
  decimal 0 0 = float_zero /\ decimal 1 0 = float_one /\
  float_of_int 1 = Ok float_one.
Proof. repeat split; vm_compute; reflexivity. Qed.

Lemma normalized_unit (x : float) :
  normalized x = true ->
  valid_binary float_prec float_emax x = true /\
  unit_float float_prec float_emax x.
Proof.
  unfold normalized. intros Hn.
  apply andb_prop in Hn. destruct Hn as [Hn Hle1].
  apply andb_prop in Hn. destruct Hn as [Hvalid Hle0].
  split; [exact Hvalid|].
  apply (unit_float_spec float_prec float_emax float_prec_pos
           float_emax_large 4503599627370496 float_one_mantissa
           x Hvalid Hle0 Hle1).
Qed.

(** One axis of the chart mapping, on the fixed-point scale. *)
Lemma to_pixel_fix (origin size : Z) (p : float) :
  unit_float float_prec float_emax p -> 0 < size <= 9007199254740992 ->
  to_pixel origin size p
  = Ok (origin + pixel_offset float_prec float_emax size p).
Proof.
  intros Hp Hsize. rewrite <- float_prec_pow in Hsize.
  destruct (scaled_pixel float_prec float_emax float_prec_pos
              float_emax_large p size Hp Hsize)
    as (wf & Hconv & Hfinite & Hint).
  unfold to_pixel, float_mul_int, float_of_int.
  rewrite Hconv.
  destruct wf as [s|s| |s m e]; cbn [rbind];
    try (rewrite Hint; reflexivity).
  exfalso. apply (Hfinite s). reflexivity.
Qed.

Lemma to_pixel_zero (origin size : Z) :
  0 < size <= 9007199254740992 ->
  to_pixel origin size float_zero = Ok origin.
Proof.
  intros Hsize. rewrite to_pixel_fix by (exact I || exact Hsize).
  unfold float_zero.
  rewrite (pixel_offset_zero float_prec float_emax float_prec_pos
             float_emax_large).
  rewrite Z.add_0_r. reflexivity.
Qed.

Lemma to_pixel_one (origin size : Z) :
  0 < size <= 9007199254740992 ->
  to_pixel origin size float_one = Ok (origin + size).
Proof.
  intros Hsize.
  assert (Hunit : unit_float float_prec float_emax float_one)
    by (apply normalized_unit; reflexivity).
  rewrite to_pixel_fix by assumption.
  unfold float_one.
  change (-52) with (1 - float_prec).
  rewrite (pixel_offset_one float_prec float_emax float_prec_pos
             float_emax_large 4503599627370496 float_one_mantissa)
    by (rewrite float_prec_pow; exact Hsize).
  reflexivity.
Qed.

Lemma to_pixel_mono (origin size : Z) (p1 p2 : float) :
  0 < size <= 9007199254740992 ->
  normalized p1 = true -> normalized p2 = true ->
  exists x1 x2,
    to_pixel origin size p1 = Ok x1 /\ to_pixel origin size p2 = Ok x2 /\
    (SFleb p1 p2 = true -> x1 <= x2).
Proof.
  intros Hsize Hn1 Hn2.
  destruct (normalized_unit p1 Hn1) as [Hv1 Hu1].
  destruct (normalized_unit p2 Hn2) as [Hv2 Hu2].
  exists (origin + pixel_offset float_prec float_emax size p1),
         (origin + pixel_offset float_prec float_emax size p2).
  split; [apply to_pixel_fix; assumption|].
  split; [apply to_pixel_fix; assumption|].
  intros Hle.
  apply Z.add_le_mono_l.
  apply (pixel_offset_mono float_prec float_emax float_prec_pos
           float_emax_large).
  - lia.
  - apply fix_val_nonneg.
  - apply (SFleb_fix_val float_prec float_emax float_prec_pos); assumption.
Qed.

(** *** Sizes beyond [2^prec]

    A size above [2^prec] is rounded when it becomes a float.  The product
    with a coordinate in [[0, 1]] is then the rounding of an exact product
    with the rounded size; it stays finite, and it is still monotone. *)

Section Canonical.
Variables prec emax N : Z.
Hypothesis Hprec : 0 < prec.
Hypothesis Hemax : 2 <= emax.
Hypothesis HN : 0 <= emin prec emax + N.

(** The second normalisation, case by case. *)
Lemma shr_fexp_renorm_cases (q e : Z) :
  0 <= q <= 2 ^ prec -> emin prec emax <= e ->
  exists rec e',
    shr_fexp prec emax q e loc_Exact = (rec, e') /\
    ((q < 2 ^ prec /\ shr_m rec = q /\ e' = e) \/
     (q = 2 ^ prec /\ shr_m rec = 2 ^ (prec - 1) /\ e' = e + 1)).
Proof.
  intros Hq He. unfold shr_fexp. cbn [shr_record_of_loc]. unfold shr.
  assert (Hpow : 2 ^ prec = 2 * 2 ^ (prec - 1)).
  { replace prec with (1 + (prec - 1)) at 1 by lia.
    rewrite Z.pow_add_r by lia. reflexivity. }
  assert (Hhalf : 0 < 2 ^ (prec - 1)) by (apply Z.pow_pos_nonneg; lia).
  destruct (Z.eq_dec q 0) as [-> | Hq0].
  { cbn [Zdigits2]. unfold fexp.
    destruct (Z.max (0 + e - prec) (emin prec emax) - e) as [|p|p] eqn:Hk;
      try lia; eexists _, _; (split; [reflexivity|]);
      cbn [shr_m]; left; repeat split; lia. }
  rewrite Zdigits2_log2 by lia.
  pose proof (Z.log2_spec q ltac:(lia)) as Hlog.
  pose proof (Z.log2_nonneg q) as Hlog0.
  destruct (Z.eq_dec q (2 ^ prec)) as [-> | Hq1].
  - rewrite Z.log2_pow2 by lia. unfold fexp.
    replace (Z.max (prec + 1 + e - prec) (emin prec emax) - e) with 1 by lia.
    eexists _, _. split; [reflexivity|].
    cbn [iter_pos].
    pose proof (shr_inv_step (2 ^ prec) 0 _ ltac:(lia)
                  (shr_inv_start (2 ^ prec) ltac:(lia)))
      as [Hm' (rem & Hv & Hr & _)].
    cbn [Z.add] in Hv, Hr. rewrite Z.pow_1_r in Hv, Hr.
    right. repeat split; lia.
  - assert (Hlt : Z.log2 q < prec) by (apply Z.log2_lt_pow2; lia).
    unfold fexp.
    destruct (Z.max (Z.log2 q + 1 + e - prec) (emin prec emax) - e)
      as [|p|p] eqn:Hk; try lia;
      eexists _, _; (split; [reflexivity|]); cbn [shr_m];
      left; repeat split; lia.
Qed.

(** A mantissa below [2^prec], with all its [prec] bits above the smallest
    exponent, is canonical. *)
Lemma bounded_intro (m : positive) (e : Z) :
  Z.pos m < 2 ^ prec -> emin prec emax <= e <= emax - prec ->
  (emin prec emax < e -> 2 ^ (prec - 1) <= Z.pos m) ->
  bounded prec emax m e = true.
Proof.
  intros Hm He Hnormal. unfold bounded, canonical_mantissa.
  apply andb_true_intro. split; [|apply Z.leb_le; lia].
  apply Z.eqb_eq.
  change (Z.pos (digits2_pos m)) with (Zdigits2 (Z.pos m)).
  rewrite Zdigits2_log2 by lia.
  assert (Hlt : Z.log2 (Z.pos m) < prec) by (apply Z.log2_lt_pow2; lia).
  unfold fexp.
  destruct (Z.eq_dec e (emin prec emax)) as [-> | Hne]; [lia|].
  assert (Hge : prec - 1 <= Z.log2 (Z.pos m))
    by (apply Z.log2_le_pow2; [lia | apply Hnormal; lia]).
  lia.
Qed.

(** [binary_round_aux] on an exact positive value whose mantissa is not
    shorter than its exponent allows: the result is canonical, and an
    overflow means the rounded value is at least [2^emax]. *)
Lemma binary_round_aux_canonical (m : positive) (e : Z) :
  0 <= e + N ->
  e <= fexp prec emax (Zdigits2 (Z.pos m) + e) ->
  let V := Z.pos m * 2 ^ (e + N) in
  match binary_round_aux prec emax false (Z.pos m) e loc_Exact with
  | S754_zero false => round_fix prec (emin prec emax + N) V = 0
  | S754_finite false m' e' =>
      Z.pos m' * 2 ^ (e' + N) = round_fix prec (emin prec emax + N) V /\
      bounded prec emax m' e' = true
  | S754_infinity false =>
      2 ^ (emax + N) <= round_fix prec (emin prec emax + N) V
  | _ => False
  end.
Proof.
  intros He Hshift V.
  pose proof (grid_scaled prec emax N m e He) as Hgrid. fold V in Hgrid.
  set (E := fexp prec emax (Zdigits2 (Z.pos m) + e)) in *.
  assert (HEmin : emin prec emax <= E) by (unfold E, fexp; lia).
  assert (Hminmax : emin prec emax + 1 <= emax - prec) by (unfold emin; lia).
  unfold binary_round_aux.
  destruct (shr_fexp_round prec emax (Z.pos m) e ltac:(lia))
    as (rec1 & e1 & -> & He1 & Hq1).
  fold E in He1.
  assert (He1E : e1 = E) by lia.
  set (q := round_nearest_even (shr_m rec1) (loc_of_shr_record rec1)) in *.
  assert (HPE : 0 < 2 ^ (e1 + N)) by (apply Z.pow_pos_nonneg; lia).
  assert (Hval : q * 2 ^ (e1 + N) = round_fix prec (emin prec emax + N) V).
  { unfold round_fix. rewrite Hgrid, Hq1.
    replace (E + N) with (e1 + N) by lia.
    f_equal. unfold V.
    replace (e1 + N) with ((e1 - e) + (e + N)) by lia.
    symmetry. apply nearest_even_scale; lia. }
  pose proof (Z.log2_spec (Z.pos m) ltac:(lia)) as Hlog.
  pose proof (Z.log2_nonneg (Z.pos m)) as Hlog0.
  assert (Hdig : E = Z.max (Z.log2 (Z.pos m) + 1 + e - prec) (emin prec emax))
    by (unfold E, fexp; rewrite Zdigits2_log2 by lia; reflexivity).
  assert (Hqbound : 0 <= q <= 2 ^ prec).
  { rewrite Hq1. split.
    - apply nearest_even_ge; lia.
    - apply nearest_even_le; [lia|].
      rewrite <- Z.pow_add_r by lia.
      assert (2 ^ Z.succ (Z.log2 (Z.pos m)) <= 2 ^ (prec + (e1 - e)))
        by (apply Z.pow_le_mono_r; lia).
      lia. }
  assert (Hqlow : emin prec emax < E -> 2 ^ (prec - 1) <= q).
  { intros Habove. rewrite Hq1. apply nearest_even_ge; [lia|].
    rewrite <- Z.pow_add_r by lia.
    replace (prec - 1 + (e1 - e)) with (Z.log2 (Z.pos m)) by lia.
    lia. }
  assert (Hpow : 2 ^ prec = 2 * 2 ^ (prec - 1)).
  { replace prec with (1 + (prec - 1)) at 1 by lia.
    rewrite Z.pow_add_r by lia. reflexivity. }
  assert (Hhalf : 0 < 2 ^ (prec - 1)) by (apply Z.pow_pos_nonneg; lia).
  assert (Hnext : 2 ^ (e1 + 1 + N) = 2 * 2 ^ (e1 + N)).
  { replace (e1 + 1 + N) with (1 + (e1 + N)) by lia.
    rewrite Z.pow_add_r by lia. reflexivity. }
  assert (Hbig : forall t, emax - prec < t -> 
            2 ^ (emax + N) <= 2 ^ (prec - 1) * 2 ^ (t + N)).
  { intros t Ht. rewrite <- Z.pow_add_r by lia.
    apply Z.pow_le_mono_r; lia. }
  destruct (shr_fexp_renorm_cases q e1 Hqbound ltac:(lia))
    as (rec2 & e2 & -> & Hcases).
  destruct (shr_m rec2) as [|m2|m2] eqn:Hm2eq.
  - destruct Hcases as [(Hlt & Hm2 & He2) | (Heq & Hm2 & He2)]; [|lia].
    rewrite <- Hval, <- Hm2. reflexivity.
  - destruct (Z.leb_spec e2 (emax - prec)) as [Hfin | Hinf].
    + destruct Hcases as [(Hlt & Hm2 & He2) | (Heq & Hm2 & He2)].
      * split; [rewrite Hm2, He2; exact Hval|].
        apply bounded_intro; [lia | lia |].
        intros Habove. rewrite Hm2. apply Hqlow. lia.
      * split.
        -- rewrite <- Hval, Heq, Hm2, He2, Hnext, Hpow. ring.
        -- apply bounded_intro; [lia | lia | intros _; lia].
    + rewrite <- Hval.
      destruct Hcases as [(Hlt & Hm2 & He2) | (Heq & Hm2 & He2)].
      * specialize (Hqlow ltac:(lia)). specialize (Hbig e1 ltac:(lia)). nia.
      * specialize (Hbig (e1 + 1) ltac:(lia)). rewrite Hnext in Hbig. nia.
  - destruct Hcases as [(Hlt & Hm2 & He2) | (Heq & Hm2 & He2)]; lia.
Qed.

End Canonical.

Section Sizes.
Variables prec emax : Z.
Hypothesis Hprec : 0 < prec.
Hypothesis Hemax : 2 * prec <= emax.

Local Abbreviation M := (fix_scale prec emax).
Local Abbreviation N := (fix_scale prec emax + fix_scale prec emax).

(** [int] to [float] for every positive [int]: the conversion overflows, or
    it gives the canonical float nearest to the integer, which is at least
    one. *)
Lemma float_of_int_canonical (w : Z) :
  0 < w ->
  match binary_normalize prec emax w 0 false with
  | S754_finite false mw ew =>
      bounded prec emax mw ew = true /\
      Z.pos mw * 2 ^ (ew + M) = round_fix prec 0 (w * 2 ^ M) /\
      2 ^ M <= Z.pos mw * 2 ^ (ew + M)
  | S754_infinity false => True
  | _ => False
  end.
Proof.
  intros Hw. pose proof (M_nonneg prec emax Hprec Hemax) as HM.
  destruct w as [|pw|pw]; try lia.
  unfold binary_normalize, binary_round.
  pose proof (shl_align_spec pw 0 (fexp prec emax (Z.pos (digits2_pos pw) + 0)))
    as Hal.
  destruct (shl_align pw 0 (fexp prec emax (Z.pos (digits2_pos pw) + 0)))
    as [mz ez].
  destruct Hal as (Hez & Hmin & Hmz).
  pose proof (Z.log2_nonneg (Z.pos pw)) as Hlog0.
  assert (HezM : 0 <= ez + M).
  { unfold fexp in Hmin. rewrite emin_M in Hmin. lia. }
  assert (Hshift : ez <= fexp prec emax (Zdigits2 (Z.pos mz) + ez)).
  { rewrite Zdigits2_log2 by lia. rewrite Hmz, Z.log2_mul_pow2 by lia.
    change (Z.pos (digits2_pos pw)) with (Zdigits2 (Z.pos pw)) in Hmin.
    rewrite Zdigits2_log2 in Hmin by lia.
    replace (0 - ez + Z.log2 (Z.pos pw) + 1 + ez)
      with (Z.log2 (Z.pos pw) + 1 + 0) by lia.
    lia. }
  pose proof (binary_round_aux_canonical prec emax M Hprec ltac:(lia)
                ltac:(rewrite emin_M; lia) mz ez HezM Hshift) as Hfix.
  cbv zeta in Hfix.
  assert (HV : Z.pos mz * 2 ^ (ez + M) = Z.pos pw * 2 ^ M).
  { rewrite Hmz. rewrite <- Z.mul_assoc, <- Z.pow_add_r by lia.
    f_equal. f_equal. lia. }
  rewrite HV in Hfix.
  replace (emin prec emax + M) with 0 in Hfix by (rewrite emin_M; lia).
  assert (HPM : 0 < 2 ^ M) by (apply Z.pow_pos_nonneg; lia).
  assert (Hlow : 2 ^ M <= round_fix prec 0 (Z.pos pw * 2 ^ M)).
  { assert (Hl : Z.log2 (Z.pos pw * 2 ^ M) = M + Z.log2 (Z.pos pw))
      by (apply Z.log2_mul_pow2; lia).
    transitivity (2 ^ Z.log2 (Z.pos pw * 2 ^ M)).
    - apply Z.pow_le_mono_r; lia.
    - apply round_fix_ge_pow; [lia | unfold grid; lia |].
      apply Z.log2_spec. lia. }
  destruct (binary_round_aux prec emax false (Z.pos mz) ez loc_Exact)
    as [[|]|[|]| |[|] m' e']; try contradiction.
  - lia.
  - exact I.
  - destruct Hfix as [Hval Hb].
    split; [exact Hb|]. split; [exact Hval | rewrite Hval; exact Hlow].
Qed.

(** The product of a coordinate in [[0, 1]] with a float that is at least
    one: it is finite, and [int] of it is the rounding of the exact
    product. *)
Lemma scaled_pixel_any (x : float) (mw : positive) (ew : Z) :
  unit_float prec emax x ->
  bounded prec emax mw ew = true ->
  2 ^ M <= Z.pos mw * 2 ^ (ew + M) ->
  int_of_float (SFmul prec emax x (S754_finite false mw ew))
  = Ok (scaled_offset prec emax (S754_finite false mw ew) x).
Proof.
  intros Hx Hb Hone. pose proof (M_nonneg prec emax Hprec Hemax) as HM.
  destruct (bounded_spec prec emax Hprec mw ew Hb) as (Hew & Hmw & Hnormal).
  assert (Hewmax : ew <= emax - prec).
  { unfold bounded in Hb. apply andb_prop in Hb. destruct Hb as [_ Hb].
    apply Z.leb_le in Hb. exact Hb. }
  assert (HPM : 0 < 2 ^ M) by (apply Z.pow_pos_nonneg; lia).
  assert (HPN : 0 < 2 ^ N) by (apply Z.pow_pos_nonneg; lia).
  assert (HPew : 0 < 2 ^ (ew + M)) by (apply Z.pow_pos_nonneg; lia).
  assert (Hmwlow : 2 ^ (prec - 1) <= Z.pos mw).
  { destruct (Z.eq_dec (ew + M) 0) as [Hzero | Hne]; [|apply Hnormal; lia].
    rewrite Hzero, Z.pow_0_r, Z.mul_1_r in Hone.
    assert (2 ^ (prec - 1) <= 2 ^ M)
      by (apply Z.pow_le_mono_r; unfold fix_scale; lia).
    lia. }
  destruct x as [s|s| |[|] m e]; try contradiction.
  - cbn [SFmul int_of_float]. unfold scaled_offset. cbn [fix_val].
    rewrite Z.mul_0_l, round_fix_0, Z.div_0_l by lia. reflexivity.
  - destruct Hx as [He Hle].
    cbn [SFmul xorb]. unfold scaled_offset. cbn [fix_val].
    assert (HPe : 0 < 2 ^ (e + M)) by (apply Z.pow_pos_nonneg; lia).
    assert (HeN : 0 <= e + ew + N) by lia.
    assert (Hshift : e + ew
                     <= fexp prec emax (Zdigits2 (Z.pos (m * mw)) + (e + ew))).
    { rewrite Zdigits2_log2 by lia. unfold fexp.
      assert (prec - 1 <= Z.log2 (Z.pos (m * mw))).
      { apply Z.log2_le_pow2; [lia|]. rewrite Pos2Z.inj_mul. nia. }
      lia. }
    pose proof (binary_round_aux_canonical prec emax N Hprec ltac:(lia)
                  ltac:(rewrite emin_M; lia) (m * mw) (e + ew) HeN Hshift)
      as Hfix.
    cbv zeta in Hfix.
    replace (emin prec emax + N) with M in Hfix by (rewrite emin_M; lia).
    assert (HV : Z.pos (m * mw) * 2 ^ (e + ew + N)
                 = Z.pos m * 2 ^ (e + M) * (Z.pos mw * 2 ^ (ew + M))).
    { rewrite Pos2Z.inj_mul.
      replace (e + ew + N) with ((e + M) + (ew + M)) by lia.
      rewrite Z.pow_add_r by lia. ring. }
    rewrite HV in Hfix.
    set (X := Z.pos m * 2 ^ (e + M)) in *.
    set (Y := Z.pos mw * 2 ^ (ew + M)) in *.
    assert (HT : 2 ^ M * Y = Z.pos mw * 2 ^ (ew + N)).
    { unfold Y. replace (ew + N) with (M + (ew + M)) by lia.
      rewrite (Z.pow_add_r 2 M) by lia. ring. }
    assert (HXY : X * Y <= 2 ^ M * Y) by (apply Z.mul_le_mono_nonneg_r; lia).
    assert (Hround : round_fix prec M (X * Y) <= 2 ^ M * Y).
    { unfold round_fix.
      pose proof (grid_nonneg prec M HM (X * Y)) as Hk0.
      set (k := grid prec M (X * Y)) in *.
      assert (Hk : k <= ew + N).
      { pose proof (Z.log2_le_mono _ _ HXY) as Hl.
        rewrite HT, Z.log2_mul_pow2 in Hl by lia.
        assert (Z.log2 (Z.pos mw) < prec) by (apply Z.log2_lt_pow2; lia).
        unfold k, grid. lia. }
      assert (HPk : 0 < 2 ^ k) by (apply Z.pow_pos_nonneg; lia).
      assert (Hsplit : Z.pos mw * 2 ^ (ew + N)
                       = Z.pos mw * 2 ^ (ew + N - k) * 2 ^ k).
      { rewrite <- Z.mul_assoc, <- Z.pow_add_r by lia.
        f_equal. f_equal. lia. }
      pose proof (nearest_even_le (X * Y) k (Z.pos mw * 2 ^ (ew + N - k))
                    Hk0 ltac:(lia)) as Hne.
      rewrite HT, Hsplit.
      apply Z.mul_le_mono_nonneg_r; lia. }
    assert (HTlt : 2 ^ M * Y < 2 ^ (emax + N)).
    { rewrite HT.
      assert (2 ^ (ew + N) <= 2 ^ (emax - prec + N))
        by (apply Z.pow_le_mono_r; lia).
      assert (0 < 2 ^ (ew + N)) by (apply Z.pow_pos_nonneg; lia).
      replace (emax + N) with (prec + (emax - prec + N)) by lia.
      rewrite (Z.pow_add_r 2 prec) by lia.
      assert (0 < 2 ^ prec) by (apply Z.pow_pos_nonneg; lia).
      nia. }
    destruct (binary_round_aux prec emax false (Z.pos (m * mw)) (e + ew)
                               loc_Exact)
      as [[|]|[|]| |[|] m' e']; try contradiction.
    + cbn [int_of_float]. rewrite Hfix, Z.div_0_l by lia. reflexivity.
    + lia.
    + destruct Hfix as (Hval & Hb').
      destruct (bounded_spec prec emax Hprec m' e' Hb') as (He' & _ & _).
      cbn [int_of_float cond_Zopp].
      rewrite <- Hval. f_equal.
      apply shiftl_fix; lia.
Qed.

Lemma scaled_offset_mono (y x1 x2 : float) :
  fix_val M x1 <= fix_val M x2 ->
  scaled_offset prec emax y x1 <= scaled_offset prec emax y x2.
Proof.
  intros Hle. pose proof (M_nonneg prec emax Hprec Hemax) as HM.
  assert (HPN : 0 < 2 ^ N) by (apply Z.pow_pos_nonneg; lia).
  pose proof (fix_val_nonneg prec emax x1) as H1.
  pose proof (fix_val_nonneg prec emax y) as Hy.
  unfold scaled_offset.
  apply Z.div_le_mono; [lia|].
  apply round_fix_mono; [lia | lia | |].
  - apply Z.mul_nonneg_nonneg; lia.
  - apply Z.mul_le_mono_nonneg_r; lia.
Qed.

Lemma scaled_offset_zero (y : float) (s : bool) :
  scaled_offset prec emax y (S754_zero s) = 0.
Proof.
  pose proof (M_nonneg prec emax Hprec Hemax) as HM.
  unfold scaled_offset. cbn [fix_val].
  rewrite Z.mul_0_l, round_fix_0 by lia. apply Z.div_0_l.
  assert (0 < 2 ^ N) by (apply Z.pow_pos_nonneg; lia). lia.
Qed.

(** The product with [1.0] is the other factor. *)
Lemma scaled_offset_one (one_m mw : positive) (ew : Z) :
  Z.pos one_m = 2 ^ (prec - 1) ->
  bounded prec emax mw ew = true ->
  int_of_float (S754_finite false mw ew)
  = Ok (scaled_offset prec emax (S754_finite false mw ew)
                      (S754_finite false one_m (1 - prec))).
Proof.
  intros Hone Hb. pose proof (M_nonneg prec emax Hprec Hemax) as HM.
  destruct (bounded_spec prec emax Hprec mw ew Hb) as (Hew & Hmw & _).
  assert (HPN : 0 < 2 ^ N) by (apply Z.pow_pos_nonneg; lia).
  assert (HMprec : prec - 1 <= M) by (unfold fix_scale; lia).
  unfold scaled_offset. cbn [fix_val int_of_float cond_Zopp].
  rewrite Hone, <- Z.pow_add_r by lia.
  replace (prec - 1 + (1 - prec + M)) with M by lia.
  assert (HT : 2 ^ M * (Z.pos mw * 2 ^ (ew + M)) = Z.pos mw * 2 ^ (ew + N)).
  { replace (ew + N) with (M + (ew + M)) by lia.
    rewrite (Z.pow_add_r 2 M) by lia. ring. }
  rewrite HT.
  assert (Hexact : round_fix prec M (Z.pos mw * 2 ^ (ew + N))
                   = Z.pos mw * 2 ^ (ew + N)).
  { unfold round_fix.
    pose proof (grid_nonneg prec M HM (Z.pos mw * 2 ^ (ew + N))) as Hk0.
    set (k := grid prec M (Z.pos mw * 2 ^ (ew + N))) in *.
    assert (Hk : k <= ew + N).
    { assert (Z.log2 (Z.pos mw) < prec) by (apply Z.log2_lt_pow2; lia).
      unfold k, grid. rewrite Z.log2_mul_pow2 by lia. lia. }
    apply nearest_even_exact; [lia|].
    replace (ew + N) with ((ew + N - k) + k) by lia.
    rewrite Z.pow_add_r, Z.mul_assoc by lia.
    apply Z.mod_mul.
    assert (0 < 2 ^ k) by (apply Z.pow_pos_nonneg; lia). lia. }
  rewrite Hexact. f_equal. apply shiftl_fix; lia.
Qed.

End Sizes.

(** One axis of the chart mapping for a size in the range of a double. *)
Lemma to_pixel_any (origin size : Z) (p y : float) :
  unit_float float_prec float_emax p -> 0 < size ->
  float_of_int size = Ok y ->
  to_pixel origin size p
  = Ok (origin + scaled_offset float_prec float_emax y p).
Proof.
  intros Hp Hsize Hconv.
  pose proof (float_of_int_canonical float_prec float_emax float_prec_pos
                float_emax_large size Hsize) as Hcan.
  unfold to_pixel, float_mul_int. rewrite Hconv. cbn [rbind].
  unfold float_of_int in Hconv.
  destruct (binary_normalize float_prec float_emax size 0 false)
    as [[|]|[|]| |[|] mw ew]; try contradiction; try discriminate.
  injection Hconv as <-.
  destruct Hcan as (Hb & _ & Hone).
  rewrite (scaled_pixel_any float_prec float_emax float_prec_pos
             float_emax_large p mw ew Hp Hb Hone).
  reflexivity.
Qed.

(** The corner coordinate [1.0] maps to the size as the float has it. *)
Lemma to_pixel_any_one (origin size : Z) (y : float) :
  0 < size -> float_of_int size = Ok y ->
  exists k, int_of_float y = Ok k /\
            to_pixel origin size float_one = Ok (origin + k).
Proof.
  intros Hsize Hconv.
  assert (Hunit : unit_float float_prec float_emax float_one)
    by (apply normalized_unit; reflexivity).
  rewrite (to_pixel_any origin size float_one y Hunit Hsize Hconv).
  pose proof (float_of_int_canonical float_prec float_emax float_prec_pos
                float_emax_large size Hsize) as Hcan.
  unfold float_of_int in Hconv.
  destruct (binary_normalize float_prec float_emax size 0 false)
    as [[|]|[|]| |[|] mw ew]; try contradiction; try discriminate.
  injection Hconv as <-.
  destruct Hcan as (Hb & _ & _).
  eexists. split; [|reflexivity].
  unfold float_one. change (-52) with (1 - float_prec).
  apply (scaled_offset_one float_prec float_emax float_prec_pos
           float_emax_large 4503599627370496 mw ew float_one_mantissa Hb).
Qed.

Lemma to_pixel_one_exact (origin size : Z) :
  0 < size -> converts size = true ->
  to_pixel origin size float_one = Ok (origin + size)
  <-> exact_double size = true.
Proof.
  intros Hsize Hconv. unfold converts in Hconv. unfold exact_double.
  destruct (float_of_int size) as [y|e] eqn:Hy; [|discriminate].
  destruct (to_pixel_any_one origin size y Hsize Hy) as (k & Hk & Hpix).
  rewrite Hk, Hpix. split.
  - intros Heq. injection Heq as Heq. apply Z.eqb_eq. lia.
  - intros Heq. apply Z.eqb_eq in Heq. subst k. reflexivity.
Qed.

Lemma converts_small (size : Z) :
  0 < size <= 9007199254740992 -> converts size = true.
Proof.
  intros Hsize. rewrite <- float_prec_pow in Hsize.
  destruct (float_of_int_fix float_prec float_emax float_prec_pos
              float_emax_large size Hsize) as (mw & ew & Hconv & _).
  unfold converts, float_of_int. rewrite Hconv. reflexivity.
Qed.

Lemma to_pixel_mono_any (origin size : Z) (p1 p2 : float) :
  0 < size -> converts size = true ->
  normalized p1 = true -> normalized p2 = true ->
  exists x1 x2,
    to_pixel origin size p1 = Ok x1 /\ to_pixel origin size p2 = Ok x2 /\
    (SFleb p1 p2 = true -> x1 <= x2).
Proof.
  intros Hsize Hconv Hn1 Hn2. unfold converts in Hconv.
  destruct (float_of_int size) as [y|e] eqn:Hy; [|discriminate].
  destruct (normalized_unit p1 Hn1) as [Hv1 Hu1].
  destruct (normalized_unit p2 Hn2) as [Hv2 Hu2].
  exists (origin + scaled_offset float_prec float_emax y p1),
         (origin + scaled_offset float_prec float_emax y p2).
  split; [apply to_pixel_any; assumption|].
  split; [apply to_pixel_any; assumption|].
  intros Hle.
  apply Z.add_le_mono_l.
  apply (scaled_offset_mono float_prec float_emax float_prec_pos
           float_emax_large).
  apply (SFleb_fix_val float_prec float_emax float_prec_pos); assumption.
Qed.

Lemma to_pixel_zero_any (origin size : Z) :
  0 < size -> converts size = true ->
  to_pixel origin size float_zero = Ok origin.
Proof.
  intros Hsize Hconv. unfold converts in Hconv.
  destruct (float_of_int size) as [y|e] eqn:Hy; [|discriminate].
  rewrite (to_pixel_any origin size float_zero y I Hsize Hy).
  unfold float_zero.
  rewrite (scaled_offset_zero float_prec float_emax float_prec_pos
             float_emax_large).
  rewrite Z.add_0_r. reflexivity.
Qed.




(** * Further properties of the script *)

(** ** Font resolution, continued *)

Lemma font_loop_source (fs : FileSystem) (size : Z) (paths : list string)
  (f : Font) :
  font_loop fs paths size = Ok f ->
  (exists p, In p paths /\ path_exists fs p = Ok true /\
             truetype fs p size = Ok f) \/
  (f = DefaultFont /\ forall p, In p paths -> unusable fs size p).
Proof.
  induction paths as [|path rest IH]; cbn [font_loop].
  - unfold load_default. intros Heq. injection Heq as <-.
    right. split; [reflexivity | intros p []].
  - destruct (path_exists fs path) as [[|]|e0] eqn:Hex; cbn [rbind];
      [| |discriminate].
    + destruct (truetype fs path size) as [g|e] eqn:Hload; cbn [try_except].
      * intros Heq. injection Heq as <-. left. exists path.
        split; [left; reflexivity | split; assumption].
      * intros Heq. destruct (IH Heq) as [(p & Hin & Hp) | [Hdef Hall]].
        -- left. exists p. split; [right; exact Hin | exact Hp].
        -- right. split; [exact Hdef|].
           intros p [<- | Hin]; [|apply Hall, Hin].
           right. split; [exact Hex | exists e; exact Hload].
    + intros Heq. destruct (IH Heq) as [(p & Hin & Hp) | [Hdef Hall]].
      * left. exists p. split; [right; exact Hin | exact Hp].
      * right. split; [exact Hdef|].
        intros p [<- | Hin]; [left; exact Hex | apply Hall, Hin].
Qed.

(** X1. The handle [font] returns comes either from a candidate that exists
    and loads at that size, or it is the built-in default returned because
    every candidate is missing or fails to load. *)
Theorem font_source (fs : FileSystem) (size : Z) (bold : bool) (f : Font) :
  font fs size bold = Ok f ->
  (exists p, In p candidates /\ path_exists fs p = Ok true /\
             truetype fs p size = Ok f) \/
  (f = DefaultFont /\ forall p, In p candidates -> unusable fs size p).
Proof. apply font_loop_source. Qed.

(** On [arial_fs] the body font is Arial. *)
Lemma font_source_witness :
  (exists p, In p candidates /\ path_exists arial_fs p = Ok true /\
             truetype arial_fs p 24
             = Ok (FreeTypeFont "/Library/Fonts/Arial.ttf" 24)) \/
  (FreeTypeFont "/Library/Fonts/Arial.ttf" 24 = DefaultFont /\
   forall p, In p candidates -> unusable arial_fs 24 p).
Proof.
  apply (font_source arial_fs 24 false). reflexivity.
Defined.

Lemma font_loop_agree (fs1 fs2 : FileSystem) (size : Z) (paths : list string) :
  (forall p, In p paths ->
     path_exists fs1 p = path_exists fs2 p /\
     (path_exists fs1 p = Ok true ->
      truetype fs1 p size = truetype fs2 p size)) ->
  font_loop fs1 paths size = font_loop fs2 paths size.
Proof.
  induction paths as [|path rest IH]; intros Hagree; cbn [font_loop].
  - reflexivity.
  - destruct (Hagree path (or_introl eq_refl)) as [Hex Hload].
    rewrite <- Hex.
    assert (Hrest : font_loop fs1 rest size = font_loop fs2 rest size)
      by (apply IH; intros p Hin; apply Hagree; right; exact Hin).
    destruct (path_exists fs1 path) as [[|]|e0]; cbn [rbind];
      [|exact Hrest | reflexivity].
    rewrite <- (Hload eq_refl).
    destruct (truetype fs1 path size); cbn [try_except];
      [reflexivity | exact Hrest].
Qed.

(** X2. [font] looks at nothing but the three candidate paths: two machines
    that agree on the outcome of testing each candidate for existence, a
    boolean or the exception raised, and on the outcome of loading the
    candidates that exist at that size, end [font] the same way, with the
    same handle or the same exception, whatever else differs and whatever
    the [bold] flags. *)
Theorem font_reads_candidates_only (fs1 fs2 : FileSystem) (size : Z)
  (bold1 bold2 : bool) :
  (forall p, In p candidates ->
     path_exists fs1 p = path_exists fs2 p /\
     (path_exists fs1 p = Ok true ->
      truetype fs1 p size = truetype fs2 p size)) ->
  font fs1 size bold1 = font fs2 size bold2.
Proof. apply font_loop_agree. Qed.

(** An extra font file elsewhere on the disk changes nothing. *)
Lemma font_reads_candidates_only_witness :
  font arial_fs 36 true = font arial_fs' 36 false.
Proof.
  apply (font_reads_candidates_only arial_fs arial_fs' 36 true false).
  intros p Hin. cbn [candidates In] in Hin.
  destruct Hin as [<- | [<- | [<- | []]]]; split; reflexivity.
Defined.

(** ** The composite shapes, continued *)

Ltac coords :=
  unfold shift_point, shift_box, mirror_point, mirror_box; cbn [fst snd];
  repeat first [ reflexivity | lia | apply f_equal2 | progress f_equal ].


Lemma calls_draws (m : Draw (B := Recorder) unit) (ops : list DrawOp) :
  draws m ops -> calls m = ops.
Proof. intros Hm. unfold calls. rewrite Hm. reflexivity. Qed.

Lemma draws_panel (F : Fonts) (x y w h : Z) (title : option string) :
  draws (panel F x y w h title)
        (RoundedRectangle (x, y, x + w, y + h) 20 (Some SURFACE) (Some BORDER) 2
         :: if truthy title
            then [ Text (x + 20, y + 14)
                        (match title with Some s => s | None => "" end)
                        TEXT (F_H3 F) ]
            else []).
Proof.
  unfold panel, rounded_rectangle, text.
  destruct (truthy title); [apply draws_two | apply draws_one].
Qed.

Lemma draws_bullet (F : Fonts) (x y : Z) (s : string) (color : option Color) :
  draws (bullet F x y s color)
        [ Ellipse (x, y + 8, x + 10, y + 18)
                  (match color with Some c => c | None => GREEN end);
          Text (x + 18, y) s TEXT (F_BODY F) ].
Proof. apply draws_two. Qed.

Lemma draws_arrow (x1 y1 x2 y2 : Z) (color : option Color) :
  draws (arrow x1 y1 x2 y2 color)
        [ Line [(x1, y1); (x2, y2)]
               (match color with Some c => c | None => BLUE end) 4;
          Polygon (if x2 >=? x1
                   then [(x2, y2); (x2 - 14, y2 - 8); (x2 - 14, y2 + 8)]
                   else [(x2, y2); (x2 + 14, y2 - 8); (x2 + 14, y2 + 8)])
                  (match color with Some c => c | None => BLUE end) ].
Proof. apply draws_two. Qed.

(** X3. The shapes are positioned by their anchor alone: drawing [panel],
    [bullet] or [arrow] at coordinates moved by [(dx, dy)] makes the same
    calls with every coordinate moved by [(dx, dy)]. *)
Theorem shapes_translate (F : Fonts) (dx dy : Z) :
  (forall x y w h title,
     calls (panel F (x + dx) (y + dy) w h title)
     = map (shift_op dx dy) (calls (panel F x y w h title))) /\
  (forall x y s color,
     calls (bullet F (x + dx) (y + dy) s color)
     = map (shift_op dx dy) (calls (bullet F x y s color))) /\
  (forall x1 y1 x2 y2 color,
     calls (arrow (x1 + dx) (y1 + dy) (x2 + dx) (y2 + dy) color)
     = map (shift_op dx dy) (calls (arrow x1 y1 x2 y2 color))).
Proof.
  split; [|split].
  - intros x y w h title.
    rewrite !(calls_draws _ _ (draws_panel _ _ _ _ _ _)).
    destruct (truthy title); cbn [map shift_op shift_box shift_point fst snd];
      coords.
  - intros x y s color.
    rewrite !(calls_draws _ _ (draws_bullet _ _ _ _ _)).
    cbn [map shift_op shift_box shift_point fst snd]. coords.
  - intros x1 y1 x2 y2 color.
    rewrite !(calls_draws _ _ (draws_arrow _ _ _ _ _)).
    replace (x2 + dx >=? x1 + dx) with (x2 >=? x1)
      by (destruct (Z.geb_spec x2 x1), (Z.geb_spec (x2 + dx) (x1 + dx)); lia).
    destruct (x2 >=? x1); cbn [map shift_op shift_box shift_point fst snd];
      coords.
Qed.

(** X4. [arrow] is symmetric under reflection in a vertical axis exactly
    when the arrow is not vertical: for [x1 <> x2] the mirrored arrow is the
    mirror image, for [x1 = x2] it is not, because the head of a vertical
    arrow always lies on the left of the shaft. *)
Theorem arrow_mirror (x1 y1 x2 y2 : Z) (color : option Color) :
  calls (arrow (- x1) y1 (- x2) y2 color)
  = map mirror_op (calls (arrow x1 y1 x2 y2 color))
  <-> x1 <> x2.
Proof.
  rewrite !(calls_draws _ _ (draws_arrow _ _ _ _ _)).
  cbn [map mirror_op mirror_point fst snd].
  destruct (Z.geb_spec x2 x1) as [Hge | Hlt];
    destruct (Z.geb_spec (- x2) (- x1)) as [Hge' | Hlt'];
    cbn [map mirror_op mirror_point fst snd]; split.
  - intros Heq Hne. injection Heq. lia.
  - intros Hne. lia.
  - intros _. lia.
  - intros _. coords.
  - intros _. lia.
  - intros _. coords.
  - intros Heq. lia.
  - intros Hne. lia.
Qed.

(** The arrow of the architecture diagram, mirrored. *)
Lemma arrow_mirror_witness :
  calls (arrow (- 336) 310 (- 390) 310 None)
  = map mirror_op (calls (arrow 336 310 390 310 None)).
Proof.
  apply (proj2 (arrow_mirror 336 310 390 310 None)). lia.
Defined.

(** ** The drawing code never looks at the canvas *)

Lemma perform_all_app {B : Backend} (ops1 ops2 : list DrawOp) (img : Image) :
  perform_all (ops1 ++ ops2) img
  = let* img' := perform_all ops1 img in perform_all ops2 img'.
Proof.
  revert img. induction ops1 as [|op ops1 IH]; intros img; cbn [app perform_all rbind].
  - reflexivity.
  - destruct (perform op img) as [img'|e]; cbn [rbind]; [apply IH | reflexivity].
Qed.

Lemma replays_call (op : DrawOp) : replays (fun B => call op) [op].
Proof.
  intros B img. unfold call, replay. cbn [perform_all rbind].
  destruct (perform op img); reflexivity.
Qed.

Lemma replays_ret : replays (fun B => ret tt) [].
Proof. intros B img. reflexivity. Qed.

Lemma replays_seq (m k : forall B : Backend, Draw (B := B) unit)
  (ops1 ops2 : list DrawOp) :
  replays m ops1 -> replays k ops2 ->
  replays (fun B => m B ;; k B) (ops1 ++ ops2).
Proof.
  intros Hm Hk B img. unfold seq, bind. rewrite Hm. unfold replay.
  rewrite perform_all_app.
  destruct (perform_all ops1 img) as [img'|e]; cbn [rbind]; [|reflexivity].
  rewrite Hk. reflexivity.
Qed.

Lemma replays_draws (m : forall B : Backend, Draw (B := B) unit)
  (ops : list DrawOp) :
  replays m ops -> draws (m Recorder) ops.
Proof.
  intros Hm img. rewrite Hm. unfold replay.
  assert (Hrec : forall ops' img', perform_all (B := Recorder) ops' img' = Ok (img' ++ ops')).
  { induction ops' as [|op ops' IH]; intros img'; cbn [perform_all rbind].
    - rewrite app_nil_r. reflexivity.
    - cbn. rewrite IH, <- app_assoc. reflexivity. }
  rewrite Hrec. reflexivity.
Qed.

Lemma replays_panel (F : Fonts) (x y w h : Z) (title : option string) :
  replays (fun B => panel F x y w h title) (calls (panel F x y w h title)).
Proof.
  rewrite (calls_draws _ _ (draws_panel _ _ _ _ _ _)).
  unfold panel, rounded_rectangle, text.
  destruct (truthy title).
  - apply (replays_seq (fun B => call _) (fun B => call _) [_] [_]);
      apply replays_call.
  - apply (replays_seq (fun B => call _) (fun B => ret tt) [_] []);
      [apply replays_call | apply replays_ret].
Qed.

Lemma replays_bullet (F : Fonts) (x y : Z) (s : string) (c : option Color) :
  replays (fun B => bullet F x y s c) (calls (bullet F x y s c)).
Proof.
  rewrite (calls_draws _ _ (draws_bullet _ _ _ _ _)).
  apply (replays_seq (fun B => call _) (fun B => call _) [_] [_]);
    apply replays_call.
Qed.

Lemma replays_arrow (x1 y1 x2 y2 : Z) (c : option Color) :
  replays (fun B => arrow x1 y1 x2 y2 c) (calls (arrow x1 y1 x2 y2 c)).
Proof.
  rewrite (calls_draws _ _ (draws_arrow _ _ _ _ _)).
  apply (replays_seq (fun B => call _) (fun B => call _) [_] [_]);
    apply replays_call.
Qed.

Lemma replays_calls (m : forall B : Backend, Draw (B := B) unit)
  (ops : list DrawOp) :
  replays m ops -> replays m (calls (m Recorder)).
Proof.
  intros Hm. rewrite (calls_draws _ _ (replays_draws m ops Hm)). exact Hm.
Qed.

Lemma replays_if (b : bool) (m k : forall B : Backend, Draw (B := B) unit)
  (ops1 ops2 : list DrawOp) :
  replays m ops1 -> replays k ops2 ->
  replays (fun B => if b then m B else k B) (if b then ops1 else ops2).
Proof. destruct b; intros Hm Hk; assumption. Qed.

Lemma replays_lift {A : Type} (r : result A) (v : A)
  (k : forall B : Backend, A -> Draw (B := B) unit) (ops : list DrawOp) :
  r = Ok v -> replays (fun B => k B v) ops ->
  replays (fun B => bind (lift r) (k B)) ops.
Proof. intros -> Hk B img. unfold bind, lift. apply Hk. Qed.

Lemma replays_segments_loop (F : Fonts) (risk_x risk_w sy sw : Z)
  (segments : list (string * Color)) (sx : Z) :
  replays (fun B => segments_loop F risk_x risk_w sy sw segments sx)
          (calls (segments_loop F risk_x risk_w sy sw segments sx)).
Proof.
  revert sx. induction segments as [|[name color] rest IH]; intros sx.
  - apply replays_ret.
  - cbn [segments_loop].
    eapply replays_calls.
    eapply replays_seq; [apply replays_call|].
    eapply replays_seq; [apply replays_call|].
    eapply replays_seq; [|apply IH].
    apply replays_if; [apply replays_arrow | apply replays_ret].
Qed.

Lemma replays_actions_loop (F : Fonts) (actions : list string) (y : Z) :
  replays (fun B => actions_loop F actions y)
          (calls (actions_loop F actions y)).
Proof.
  revert y. induction actions as [|line rest IH]; intros y.
  - apply replays_ret.
  - cbn [actions_loop].
    eapply replays_calls.
    eapply replays_seq; [apply replays_call | apply IH].
Qed.

Lemma replays_state_lines_loop (F : Fonts)
  (state_lines : list (string * string * Color)) (y : Z) :
  replays (fun B => state_lines_loop F state_lines y)
          (calls (state_lines_loop F state_lines y)).
Proof.
  revert y. induction state_lines as [|[[key val] col] rest IH]; intros y.
  - apply replays_ret.
  - cbn [state_lines_loop].
    eapply replays_calls.
    eapply replays_seq; [apply replays_call|].
    eapply replays_seq; [apply replays_call|].
    eapply replays_seq; [apply replays_call | apply IH].
Qed.

Lemma replays_markers (xy : list Point) (color : Color) :
  replays (fun B => markers xy color) (calls (markers xy color)).
Proof.
  unfold markers. induction xy as [|p rest IH].
  - apply replays_ret.
  - cbn [for_each].
    eapply replays_calls.
    eapply replays_seq; [apply replays_call | apply IH].
Qed.

Lemma save_replays (name : string)
  (m : forall B : Backend, Draw (B := B) unit) (ops : list DrawOp) :
  replays m ops ->
  forall B : Backend,
    save name (m B) = replay_saved (save (B := Recorder) name (m Recorder)).
Proof.
  intros Hm B. unfold save, replay_saved, replay_file.
  pose proof (replays_draws m ops Hm []) as Hrec. cbn [app] in Hrec.
  change (@Image_new Recorder (W, H) BG) with (@nil DrawOp).
  rewrite Hrec, (Hm B). unfold replay. cbn [rbind Image_save Recorder].
  destruct (perform_all ops (Image_new (W, H) BG)); reflexivity.
Qed.

Ltac replay_steps :=
  repeat lazymatch goal with
  | |- replays (fun B => seq _ _) _ => eapply replays_seq
  | |- replays (fun B => panel _ _ _ _ _ _) _ => apply replays_panel
  | |- replays (fun B => bullet _ _ _ _ _) _ => apply replays_bullet
  | |- replays (fun B => arrow _ _ _ _ _) _ => apply replays_arrow
  | |- replays (fun B => segments_loop _ _ _ _ _ _ _) _ =>
      apply replays_segments_loop
  | |- replays (fun B => actions_loop _ _ _) _ => apply replays_actions_loop
  | |- replays (fun B => state_lines_loop _ _ _) _ =>
      apply replays_state_lines_loop
  | |- replays (fun B => markers _ _) _ => apply replays_markers
  | |- replays (fun B => call _) _ => apply replays_call
  | |- replays (fun B => ret tt) _ => apply replays_ret
  | |- replays (fun B => bind (lift _) _) _ =>
      eapply replays_lift; [vm_compute; reflexivity|]
  end.

(** X5. On every backend, [panel], [bullet] and [arrow] perform exactly the
    calls they make on the recording backend, in that order, and stop at
    the first call that raises, passing its exception on. *)
Theorem shapes_perform_in_order (B : Backend) (F : Fonts) (img : Image) :
  (forall x y w h title,
     panel F x y w h title img
     = replay (calls (panel F x y w h title)) img) /\
  (forall x y s color,
     bullet F x y s color img = replay (calls (bullet F x y s color)) img) /\
  (forall x1 y1 x2 y2 color,
     arrow x1 y1 x2 y2 color img
     = replay (calls (arrow x1 y1 x2 y2 color)) img).
Proof.
  split; [|split]; intros.
  - apply (replays_panel F x y w h title B img).
  - apply (replays_bullet F x y s color B img).
  - apply (replays_arrow x1 y1 x2 y2 color B img).
Qed.

Lemma replays_file_intro (name : string)
  (render : forall B : Backend, result (string * Image (Backend := B)))
  (ops : list DrawOp) (count : nat) :
  render Recorder = Ok (name, ops) ->
  List.length ops = count ->
  (forall B : Backend, render B = replay_saved (render Recorder)) ->
  replays_file name count render.
Proof.
  intros Hrec Hlen Hall. exists ops. split; [exact Hrec|].
  split; [exact Hlen|].
  intros B. rewrite (Hall B), Hrec. reflexivity.
Qed.

(** X6. Each of the four diagrams is one fixed sequence of drawing calls,
    64, 49, 38 and 36 of them, whatever the backend answers: the plain
    Python between the calls never raises, so the recording backend lists
    the calls of the whole diagram, and on every backend the render creates
    the canvas, performs exactly those calls in that order, stops at the
    first that raises, then saves the image under the diagram's file name,
    and returns the file unless the save raises. *)
Theorem renders_replay (F : Fonts) :
  replays_file "infographic_architecture.png" 64
               (fun B => render_architecture (B := B) F) /\
  replays_file "infographic_security_model.png" 49
               (fun B => render_security_model (B := B) F) /\
  replays_file "infographic_control_plane.png" 38
               (fun B => render_control_plane (B := B) F) /\
  replays_file "infographic_leak_detection.png" 36
               (fun B => render_leak_detection (B := B) F).
Proof.
  assert (H1 : forall B : Backend, render_architecture (B := B) F
    = replay_saved (render_architecture (B := Recorder) F)).
  { unfold render_architecture, text.
    eapply save_replays. replay_steps. }
  assert (H2 : forall B : Backend, render_security_model (B := B) F
    = replay_saved (render_security_model (B := Recorder) F)).
  { unfold render_security_model, text, rounded_rectangle. cbv zeta.
    eapply save_replays. replay_steps. }
  assert (H3 : forall B : Backend, render_control_plane (B := B) F
    = replay_saved (render_control_plane (B := Recorder) F)).
  { unfold render_control_plane, text. cbv zeta.
    eapply save_replays. replay_steps. }
  assert (H4 : forall B : Backend, render_leak_detection (B := B) F
    = replay_saved (render_leak_detection (B := Recorder) F)).
  { unfold render_leak_detection, text, rounded_rectangle, line. cbv zeta.
    eapply save_replays. replay_steps. }
  split; [|split; [|split]].
  - eapply replays_file_intro;
      [vm_compute; reflexivity | reflexivity | exact H1].
  - eapply replays_file_intro;
      [vm_compute; reflexivity | reflexivity | exact H2].
  - eapply replays_file_intro;
      [vm_compute; reflexivity | reflexivity | exact H3].
  - eapply replays_file_intro;
      [vm_compute; reflexivity | reflexivity | exact H4].
Qed.

(** ** Layout of the four diagrams *)

Ltac issued render :=
  let r := eval vm_compute in render in
  lazymatch r with
  | Ok (_, ?ops) => exists ops
  end.

(** X7. For every font table, every call that each of the four diagrams
    issues is sound on the 1536 x 1024 canvas: all anchors and corners are
    pixels of the canvas, every box has positive width and height, every
    line has at least two points and every polygon three, and no text is
    empty.  In particular the coordinate check of the imaging library
    rejects none of the calls.  Soundness of the calls is one thing and
    completion another: on a backend that accepts every call, the render
    ends as its save ends. *)
Theorem diagrams_well_formed (F : Fonts) :
  diagram_ok "infographic_architecture.png"
             (fun B => render_architecture (B := B) F) /\
  diagram_ok "infographic_security_model.png"
             (fun B => render_security_model (B := B) F) /\
  diagram_ok "infographic_control_plane.png"
             (fun B => render_control_plane (B := B) F) /\
  diagram_ok "infographic_leak_detection.png"
             (fun B => render_leak_detection (B := B) F).
Proof.
  split; [|split; [|split]].
  - issued (render_architecture (B := Recorder) F).
    split; [|split]; [| |intros written]; vm_compute; reflexivity.
  - issued (render_security_model (B := Recorder) F).
    split; [|split]; [| |intros written]; vm_compute; reflexivity.
  - issued (render_control_plane (B := Recorder) F).
    split; [|split]; [| |intros written]; vm_compute; reflexivity.
  - issued (render_leak_detection (B := Recorder) F).
    split; [|split]; [| |intros written]; vm_compute; reflexivity.
Qed.

Lemma calls_seq (m k : Draw (B := Recorder) unit) (ops1 ops2 : list DrawOp) :
  draws m ops1 -> draws k ops2 -> calls (m ;; k) = ops1 ++ ops2.
Proof. intros Hm Hk. apply calls_draws, draws_seq; assumption. Qed.

Lemma draws_segments_loop (F : Fonts) (risk_x risk_w sy sw : Z)
  (segments : list (string * Color)) (sx : Z) :
  draws (segments_loop F risk_x risk_w sy sw segments sx)
        (calls (segments_loop F risk_x risk_w sy sw segments sx)).
Proof.
  apply (replays_draws
           (fun B => segments_loop F risk_x risk_w sy sw segments sx)).
  apply replays_segments_loop.
Qed.

Lemma calls_segments_loop_cons (F : Fonts) (risk_x risk_w sy sw : Z)
  (name : string) (color : Color) (rest : list (string * Color)) (sx : Z) :
  calls (segments_loop F risk_x risk_w sy sw ((name, color) :: rest) sx)
  = [ RoundedRectangle (sx, sy, sx + sw, sy + 76) 12 (Some color) None 1;
      Text (sx + 46, sy + 24) name "#0B1220" (F_H3 F) ]
    ++ (if sx + sw + 42 <? risk_x + risk_w
        then calls (arrow (sx + sw + 8) (sy + 38) (sx + sw + 34) (sy + 38)
                          (Some BLUE))
        else [])
    ++ calls (segments_loop F risk_x risk_w sy sw rest (sx + (sw + 50))).
Proof.
  cbn [segments_loop].
  apply calls_draws.
  apply (draws_seq _ _ [_] (_ :: _)); [apply draws_call|].
  apply (draws_seq _ _ [_]); [apply draws_call|].
  apply draws_seq; [|apply draws_segments_loop].
  destruct (sx + sw + 42 <? risk_x + risk_w).
  - rewrite (calls_draws _ _ (draws_arrow _ _ _ _ _)). apply draws_arrow.
  - apply draws_ret.
Qed.

Lemma segment_op_ok_shift (risk_x risk_w sy sw sx : Z) (n : nat) (op : DrawOp) :
  segment_op_ok risk_x risk_w sy sw (sx + (sw + 50)) n op ->
  segment_op_ok risk_x risk_w sy sw sx (S n) op.
Proof.
  destruct op as [[[[x0 y0] x1] y1] r f o w | [x y] s f ft | b f | xy f w | xy f];
    cbn [segment_op_ok]; rewrite ?Nat2Z.inj_succ.
  - intros (k & Hk & Hx0 & Hrest). exists (k + 1). split; [lia|].
    split; [lia | exact Hrest].
  - intros (k & Hk & Hx & Hy). exists (k + 1). split; [lia|]. split; lia.
  - exact (fun H => H).
  - intros Hall p Hp. destruct (Hall p Hp) as (Hedge & Hy & k & Hk & Hgap).
    split; [exact Hedge|]. split; [exact Hy|]. exists (k + 1). split; lia.
  - intros Hall p Hp. destruct (Hall p Hp) as (Hedge & Hy & k & Hk & Hgap).
    split; [exact Hedge|]. split; [exact Hy|]. exists (k + 1). split; lia.
Qed.

Lemma calls_segments_loop_from (F : Fonts) (risk_x risk_w sy sw sx : Z)
  (segments : list (string * Color)) (k : nat) :
  calls (segments_loop F risk_x risk_w sy sw segments
                       (sx + Z.of_nat k * (sw + 50)))
  = List.concat (map (segment_calls F risk_x risk_w sy sw sx)
                (combine (List.seq k (List.length segments)) segments)).
Proof.
  revert k. induction segments as [|[name color] rest IH]; intros k.
  - reflexivity.
  - rewrite calls_segments_loop_cons.
    cbn [List.length List.seq combine map List.concat segment_calls].
    rewrite <- app_assoc. f_equal. f_equal.
    + destruct (sx + Z.of_nat k * (sw + 50) + sw + 42 <? risk_x + risk_w);
        [|reflexivity].
      rewrite (calls_draws _ _ (draws_arrow _ _ _ _ _)).
      destruct (Z.geb_spec (sx + Z.of_nat k * (sw + 50) + sw + 34)
                           (sx + Z.of_nat k * (sw + 50) + sw + 8))
        as [_ | Hbad]; [|lia].
      cbn [app]. coords.
    + rewrite <- IH.
      replace (sx + Z.of_nat (S k) * (sw + 50))
        with (sx + Z.of_nat k * (sw + 50) + (sw + 50))
        by (rewrite Nat2Z.inj_succ; lia).
      reflexivity.
Qed.

(** X8. The loop of the risk ladder in closed form, for every list of
    segments and every geometry.  Its calls are, segment by segment in the
    order of the list, for the [k]-th segment (from 0) with
    [x = sx + k * (sw + 50)]: the box [(x, sy, x + sw, sy + 76)] with radius
    12 filled in the segment's colour, then the segment's name at
    [(x + 46, sy + 24)]; then, exactly when [x + sw + 42 < risk_x + risk_w],
    the connector: a line from [(x + sw + 8, sy + 38)] to
    [(x + sw + 34, sy + 38)] and a head that points right.  Hence every
    connector lies strictly inside the 50-pixel gap after its segment and
    ends more than 8 pixels left of the right edge of the risk box. *)
Theorem segments_loop_invariant (F : Fonts) (risk_x risk_w sy sw : Z)
  (segments : list (string * Color)) (sx : Z) :
  calls (segments_loop F risk_x risk_w sy sw segments sx)
  = List.concat (map (segment_calls F risk_x risk_w sy sw sx)
                (combine (List.seq 0 (List.length segments)) segments)) /\
  Forall (segment_op_ok risk_x risk_w sy sw sx (List.length segments))
         (calls (segments_loop F risk_x risk_w sy sw segments sx)).
Proof.
  split.
  { rewrite <- calls_segments_loop_from.
    replace (sx + Z.of_nat 0 * (sw + 50)) with sx by (cbn [Z.of_nat]; lia).
    reflexivity. }
  revert sx. induction segments as [|[name color] rest IH]; intros sx.
  - constructor.
  - rewrite calls_segments_loop_cons. cbn [List.length].
    apply Forall_app. split; [|apply Forall_app; split].
    + apply Forall_cons; [|apply Forall_cons; [|apply Forall_nil]];
        cbn [segment_op_ok]; exists 0; rewrite Nat2Z.inj_succ; lia.
    + destruct (Z.ltb_spec (sx + sw + 42) (risk_x + risk_w)) as [Hfit | Hno];
        [|constructor].
      rewrite (calls_draws _ _ (draws_arrow _ _ _ _ _)).
      destruct (Z.geb_spec (sx + sw + 34) (sx + sw + 8)) as [_ | Hbad];
        [|lia].
      assert (Hpoint : forall p : Point,
                sx + sw + 8 <= fst p <= sx + sw + 34 ->
                sy + 30 <= snd p <= sy + 46 ->
                fst p + 8 < risk_x + risk_w /\
                sy + 30 <= snd p <= sy + 46 /\
                exists k, 0 <= k < Z.of_nat (S (List.length rest)) /\
                  sx + k * (sw + 50) + sw < fst p < sx + (k + 1) * (sw + 50)).
      { intros p Hx Hy. split; [lia|]. split; [lia|].
        exists 0. rewrite Nat2Z.inj_succ. lia. }
      apply Forall_cons; [|apply Forall_cons; [|apply Forall_nil]];
        cbn [segment_op_ok]; intros p Hp; cbn [In] in Hp;
        repeat (destruct Hp as [<- | Hp]); try contradiction;
        apply Hpoint; cbn [fst snd]; lia.
    + eapply Forall_impl; [|apply IH].
      intros op. apply segment_op_ok_shift.
Qed.

(** The ladder of the security diagram: four segments from [sx = 648] with
    [sw = 170] in a risk box that ends at 1400; the first three are followed
    by a connector, the last is not. *)
Lemma segments_loop_invariant_witness :
  calls (segments_loop default_fonts 620 780 676 170
           [ ("GREEN", GREEN); ("YELLOW", AMBER); ("ORANGE", "#FB923C");
             ("RED", RED) ] 648)
  = [ RoundedRectangle (648, 676, 818, 752) 12 (Some GREEN) None 1;
      Text (694, 700) "GREEN" "#0B1220" DefaultFont;
      Line [ (826, 714); (852, 714) ] BLUE 4;
      Polygon [ (852, 714); (838, 706); (838, 722) ] BLUE;
      RoundedRectangle (868, 676, 1038, 752) 12 (Some AMBER) None 1;
      Text (914, 700) "YELLOW" "#0B1220" DefaultFont;
      Line [ (1046, 714); (1072, 714) ] BLUE 4;
      Polygon [ (1072, 714); (1058, 706); (1058, 722) ] BLUE;
      RoundedRectangle (1088, 676, 1258, 752) 12 (Some "#FB923C") None 1;
      Text (1134, 700) "ORANGE" "#0B1220" DefaultFont;
      Line [ (1266, 714); (1292, 714) ] BLUE 4;
      Polygon [ (1292, 714); (1278, 706); (1278, 722) ] BLUE;
      RoundedRectangle (1308, 676, 1478, 752) 12 (Some RED) None 1;
      Text (1354, 700) "RED" "#0B1220" DefaultFont ].
Proof.
  rewrite (proj1 (segments_loop_invariant default_fonts 620 780 676 170
                    [ ("GREEN", GREEN); ("YELLOW", AMBER);
                      ("ORANGE", "#FB923C"); ("RED", RED) ] 648)).
  reflexivity.
Defined.

Lemma draws_actions_loop (F : Fonts) (actions : list string) (y : Z) :
  draws (actions_loop F actions y) (calls (actions_loop F actions y)).
Proof.
  apply (replays_draws (fun B => actions_loop F actions y)).
  apply replays_actions_loop.
Qed.

Lemma calls_actions_loop_cons (F : Fonts) (line : string)
  (rest : list string) (y : Z) :
  calls (actions_loop F (line :: rest) y)
  = Text (84, y) ("- " ++ line)%string MUTED (F_BODY F)
    :: calls (actions_loop F rest (y + 44)).
Proof.
  cbn [actions_loop]. apply calls_draws.
  apply (draws_seq _ _ [_]); [apply draws_call | apply draws_actions_loop].
Qed.

Lemma draws_state_lines_loop (F : Fonts)
  (state_lines : list (string * string * Color)) (y : Z) :
  draws (state_lines_loop F state_lines y)
        (calls (state_lines_loop F state_lines y)).
Proof.
  apply (replays_draws (fun B => state_lines_loop F state_lines y)).
  apply replays_state_lines_loop.
Qed.

Lemma calls_state_lines_loop_cons (F : Fonts) (key val : string) (col : Color)
  (rest : list (string * string * Color)) (y : Z) :
  calls (state_lines_loop F ((key, val, col) :: rest) y)
  = RoundedRectangle (844, y, 1452, y + 90) 14
                     (Some SURFACE_ALT) (Some BORDER) 2
    :: Text (870, y + 20) key TEXT (F_H3 F)
    :: Text (1110, y + 24) val col (F_BODY F)
    :: calls (state_lines_loop F rest (y + 104)).
Proof.
  cbn [state_lines_loop]. apply calls_draws.
  apply (draws_seq _ _ [_]); [apply draws_call|].
  apply (draws_seq _ _ [_]); [apply draws_call|].
  apply (draws_seq _ _ [_]); [apply draws_call | apply draws_state_lines_loop].
Qed.

(** X9. The row loops of the control-plane diagram in closed form, for every
    list and start: [actions_loop] draws one text per action, the [i]-th at
    [(84, y + 44 i)] with the prefix ["- "]; [state_lines_loop] draws three
    calls per row, the [i]-th row being the box
    [(844, y + 104 i, 1452, y + 104 i + 90)], its key at [(870, +20)] and
    its value at [(1110, +24)] in the row's colour.  Rows are 90 high at a
    pitch of 104, so they never overlap. *)
Theorem row_loops_closed_form (F : Fonts) (y : Z) :
  (forall actions : list string,
     List.length (calls (actions_loop F actions y)) = List.length actions /\
     forall (i : nat) (line : string),
       nth_error actions i = Some line ->
       nth_error (calls (actions_loop F actions y)) i
       = Some (Text (84, y + 44 * Z.of_nat i) ("- " ++ line)%string
                    MUTED (F_BODY F))) /\
  (forall state_lines : list (string * string * Color),
     List.length (calls (state_lines_loop F state_lines y))
     = (3 * List.length state_lines)%nat /\
     forall (i : nat) (key val : string) (col : Color),
       nth_error state_lines i = Some (key, val, col) ->
       let top := y + 104 * Z.of_nat i in
       let ops := calls (state_lines_loop F state_lines y) in
       nth_error ops (3 * i)
       = Some (RoundedRectangle (844, top, 1452, top + 90) 14
                                (Some SURFACE_ALT) (Some BORDER) 2) /\
       nth_error ops (3 * i + 1) = Some (Text (870, top + 20) key TEXT (F_H3 F)) /\
       nth_error ops (3 * i + 2)
       = Some (Text (1110, top + 24) val col (F_BODY F))).
Proof.
  split.
  - intros actions. revert y.
    induction actions as [|a rest IH]; intros y.
    + split; [reflexivity|]. intros [|i] line Hnth; discriminate Hnth.
    + rewrite calls_actions_loop_cons. destruct (IH (y + 44)) as [Hlen Hrows].
      split; [cbn [List.length]; rewrite Hlen; reflexivity|].
      intros [|i] line Hnth; cbn [nth_error] in *.
      * injection Hnth as <-.
        replace (y + 44 * Z.of_nat 0) with y by (cbn [Z.of_nat]; lia).
        reflexivity.
      * rewrite (Hrows i line Hnth).
        replace (y + 44 * Z.of_nat (S i)) with (y + 44 + 44 * Z.of_nat i)
          by lia.
        reflexivity.
  - intros state_lines. revert y.
    induction state_lines as [|[[k v] c] rest IH]; intros y.
    + split; [reflexivity|]. intros [|i] key val col Hnth; discriminate Hnth.
    + rewrite calls_state_lines_loop_cons.
      destruct (IH (y + 104)) as [Hlen Hrows].
      split; [cbn [List.length]; rewrite Hlen; lia|].
      intros [|i] key val col Hnth; cbn [nth_error] in Hnth.
      * injection Hnth as <- <- <-. cbv zeta. cbn [Z.of_nat].
        replace (y + 104 * 0) with y by lia.
        repeat split; reflexivity.
      * destruct (Hrows i key val col Hnth) as (H0 & H1 & H2).
        cbv zeta in *.
        replace (y + 104 * Z.of_nat (S i)) with (y + 104 + 104 * Z.of_nat i)
          by lia.
        replace (3 * S i)%nat with (S (S (S (3 * i)))) by lia.
        cbn [nth_error Nat.add].
        repeat split; assumption.
Qed.

(** The third action and the second state row of the diagram. *)
Lemma row_loops_closed_form_witness :
  nth_error (calls (actions_loop default_fonts
                      [ "tokfence start / stop / status";
                        "tokfence launch / restart / logs";
                        "tokfence kill / unkill / revoke / restore" ] 540)) 2
  = Some (Text (84, 540 + 44 * 2)
               "- tokfence kill / unkill / revoke / restore"
               MUTED DefaultFont) /\
  nth_error (calls (state_lines_loop default_fonts
                      [ ("Daemon", "Online", GREEN);
                        ("Transport", "UDS preferred + TCP fallback", BLUE) ]
                      250)) (3 * 1)
  = Some (RoundedRectangle (844, 250 + 104 * 1, 1452, 250 + 104 * 1 + 90) 14
                           (Some SURFACE_ALT) (Some BORDER) 2).
Proof.
  split.
  - apply (proj2 (proj1 (row_loops_closed_form default_fonts 540) _) 2%nat).
    reflexivity.
  - apply (proj2 (proj2 (row_loops_closed_form default_fonts 250) _) 1%nat
             "Transport" "UDS preferred + TCP fallback" BLUE).
    reflexivity.
Defined.

(** ** The chart mapping, continued *)

(** X10. [to_xy] maps point by point and keeps the order: it returns [out]
    exactly when [out] has one pixel per point, in the same order, each the
    result of the two axis mappings, none of which raised. *)
Theorem to_xy_pointwise (chart_x chart_y chart_w chart_h : Z)
  (points : list (float * float)) (out : list Point) :
  to_xy chart_x chart_y chart_w chart_h points = Ok out <->
  Forall2 (fun p q => to_pixel chart_x chart_w (fst p) = Ok (fst q) /\
                      to_pixel chart_y chart_h (snd p) = Ok (snd q))
          points out.
Proof.
  revert out. induction points as [|[px py] rest IH]; intros out;
    cbn [to_xy].
  - split.
    + intros Heq. injection Heq as <-. constructor.
    + intros Hall. inversion Hall. reflexivity.
  - destruct (to_pixel chart_x chart_w px) as [x|e] eqn:Hx; cbn [rbind].
    2:{ split; [discriminate|]. intros Hall. inversion Hall as [|? q ? ? [Hq _]].
        cbn [fst] in Hq. congruence. }
    destruct (to_pixel chart_y chart_h py) as [y|e] eqn:Hy; cbn [rbind].
    2:{ split; [discriminate|]. intros Hall. inversion Hall as [|? q ? ? [_ Hq]].
        cbn [snd] in Hq. congruence. }
    destruct (to_xy chart_x chart_y chart_w chart_h rest) as [tail|e] eqn:Hrest;
      cbn [rbind].
    + split.
      * intros Heq. injection Heq as <-. constructor.
        -- cbn [fst snd]. split; assumption.
        -- apply IH. reflexivity.
      * intros Hall. inversion Hall as [|? [qx qy] ? tail' [Hqx Hqy] Htail]; subst.
        cbn [fst snd] in *. apply IH in Htail.
        injection Htail as <-.
        rewrite Hx in Hqx. rewrite Hy in Hqy.
        injection Hqx as <-. injection Hqy as <-. reflexivity.
    + split; [discriminate|].
      intros Hall. inversion Hall as [|? q ? tail' _ Htail]; subst.
      apply IH in Htail. discriminate.
Qed.

Lemma to_pixel_nan (origin size : Z) : raises (to_pixel origin size S754_nan).
Proof.
  unfold to_pixel, float_mul_int, float_of_int.
  destruct (binary_normalize float_prec float_emax size 0 false);
    cbn [rbind SFmul int_of_float]; eexists; reflexivity.
Qed.

Lemma to_pixel_infinity (origin size : Z) (s : bool) :
  0 < size <= 9007199254740992 ->
  to_pixel origin size (S754_infinity s) = Raise OverflowError.
Proof.
  intros Hsize. rewrite <- float_prec_pow in Hsize.
  destruct (float_of_int_fix float_prec float_emax float_prec_pos
              float_emax_large size Hsize) as (mw & ew & Hconv & _).
  unfold to_pixel, float_mul_int, float_of_int. rewrite Hconv.
  reflexivity.
Qed.

Lemma to_xy_raises_cons (cx cy cw ch : Z) (p : float * float)
  (rest : list (float * float)) :
  raises (to_pixel cx cw (fst p)) \/ raises (to_pixel cy ch (snd p)) \/
  raises (to_xy cx cy cw ch rest) ->
  raises (to_xy cx cy cw ch (p :: rest)).
Proof.
  destruct p as [px py]. cbn [to_xy fst snd].
  intros Hbad.
  destruct (to_pixel cx cw px) as [x|e]; cbn [rbind];
    [|eexists; reflexivity].
  destruct (to_pixel cy ch py) as [y|e]; cbn [rbind];
    [|eexists; reflexivity].
  destruct (to_xy cx cy cw ch rest) as [out|e]; cbn [rbind];
    [|eexists; reflexivity].
  destruct Hbad as [[e He] | [[e He] | [e He]]]; discriminate.
Qed.

(** X11. A point that is not a number never becomes a pixel.  A list with a
    NaN coordinate makes [to_xy] raise for every chart geometry, and for
    chart sizes in [1 .. 2^53] so does a list with an infinite coordinate
    ([ValueError] from [int] of a NaN, [OverflowError] from [int] of an
    infinity). *)
Theorem to_xy_rejects_non_finite (chart_x chart_y chart_w chart_h : Z)
  (points : list (float * float)) (p : float * float) :
  In p points ->
  (fst p = S754_nan \/ snd p = S754_nan ->
   raises (to_xy chart_x chart_y chart_w chart_h points)) /\
  (0 < chart_w <= 9007199254740992 -> 0 < chart_h <= 9007199254740992 ->
   non_finite (fst p) = true \/ non_finite (snd p) = true ->
   raises (to_xy chart_x chart_y chart_w chart_h points)).
Proof.
  intros Hin.
  assert (Hgen : (raises (to_pixel chart_x chart_w (fst p)) \/
                  raises (to_pixel chart_y chart_h (snd p))) ->
                 raises (to_xy chart_x chart_y chart_w chart_h points)).
  { intros Hbad. induction points as [|q rest IH]; [destruct Hin|].
    apply to_xy_raises_cons.
    destruct Hin as [-> | Hin]; [tauto|].
    right. right. apply IH, Hin. }
  split.
  - intros [Hx | Hy]; apply Hgen.
    + left. rewrite Hx. apply to_pixel_nan.
    + right. rewrite Hy. apply to_pixel_nan.
  - intros Hw Hh Hbad. apply Hgen.
    destruct Hbad as [Hx | Hy]; [left | right].
    + destruct (fst p) as [s|s| |s m e]; try discriminate.
      * exists OverflowError. apply to_pixel_infinity, Hw.
      * apply to_pixel_nan.
    + destruct (snd p) as [s|s| |s m e]; try discriminate.
      * exists OverflowError. apply to_pixel_infinity, Hh.
      * apply to_pixel_nan.
Qed.

(** A NaN in the second point and an infinity in the first. *)
Lemma to_xy_rejects_non_finite_witness :
  raises (to_xy 92 560 1360 300
                [ (decimal 5 2, decimal 78 2); (S754_nan, decimal 40 2) ]) /\
  raises (to_xy 92 560 1360 300
                [ (decimal 5 2, S754_infinity false) ]).
Proof.
  split.
  - apply (proj1 (to_xy_rejects_non_finite 92 560 1360 300
                    [ (decimal 5 2, decimal 78 2); (S754_nan, decimal 40 2) ]
                    (S754_nan, decimal 40 2)
                    ltac:(right; left; reflexivity))).
    left. reflexivity.
  - apply (proj2 (to_xy_rejects_non_finite 92 560 1360 300
                    [ (decimal 5 2, S754_infinity false) ]
                    (decimal 5 2, S754_infinity false)
                    ltac:(left; reflexivity))); [lia | lia |].
    right. reflexivity.
Defined.

Section Floor.
Variables prec emax : Z.
Hypothesis Hprec : 0 < prec.
Hypothesis Hemax : 2 * prec <= emax.

Local Abbreviation M := (fix_scale prec emax).
Local Abbreviation N := (fix_scale prec emax + fix_scale prec emax).

(** Rounding stays between two neighbouring multiples of a power of two
    that is on the grid. *)
Lemma round_fix_between (G V t j : Z) :
  0 <= G -> grid prec G V <= t ->
  j * 2 ^ t <= V <= (j + 1) * 2 ^ t ->
  j * 2 ^ t <= round_fix prec G V <= (j + 1) * 2 ^ t.
Proof.
  intros HG Ht HV. unfold round_fix.
  assert (Hk : 0 <= grid prec G V) by (unfold grid; lia).
  set (k := grid prec G V) in *.
  assert (HP : 0 < 2 ^ k) by (apply Z.pow_pos_nonneg; lia).
  assert (Hsplit : 2 ^ t = 2 ^ (t - k) * 2 ^ k)
    by (rewrite <- Z.pow_add_r by lia; f_equal; lia).
  pose proof (nearest_even_ge V k (j * 2 ^ (t - k)) Hk ltac:(nia)) as Hlow.
  pose proof (nearest_even_le V k ((j + 1) * 2 ^ (t - k)) Hk ltac:(nia))
    as Hhigh.
  nia.
Qed.

Lemma pixel_offset_floor (x : float) (w : Z) :
  unit_float prec emax x -> 0 < w <= 2 ^ prec ->
  (fix_val M x * w) / 2 ^ M <= pixel_offset prec emax w x
  <= (fix_val M x * w) / 2 ^ M + 1.
Proof.
  intros Hx Hw.
  pose proof (M_nonneg prec emax Hprec Hemax) as HM.
  assert (HPM : 0 < 2 ^ M) by (apply Z.pow_pos_nonneg; lia).
  assert (HPN : 0 < 2 ^ N) by (apply Z.pow_pos_nonneg; lia).
  assert (HNsplit : 2 ^ N = 2 ^ M * 2 ^ M) by (apply Z.pow_add_r; lia).
  pose proof (fix_val_nonneg prec emax x) as HX0.
  assert (HX1 : fix_val M x <= 2 ^ M).
  { destruct x as [s|s| |[|] m e]; cbn [fix_val unit_float] in *;
      try contradiction; lia. }
  set (A := fix_val M x * w) in *.
  assert (HA0 : 0 <= A) by (unfold A; apply Z.mul_nonneg_nonneg; lia).
  assert (HA1 : A <= 2 ^ M * 2 ^ prec)
    by (unfold A; apply Z.mul_le_mono_nonneg; lia).
  set (j := A / 2 ^ M).
  pose proof (Z.div_mod A (2 ^ M) ltac:(lia)) as Hdm.
  pose proof (Z.mod_pos_bound A (2 ^ M) HPM) as Hmod.
  fold j in Hdm.
  unfold pixel_offset. fold A. set (V := A * 2 ^ M).
  assert (HVj : j * 2 ^ N <= V <= (j + 1) * 2 ^ N)
    by (unfold V; rewrite HNsplit; nia).
  assert (Hbetween : j * 2 ^ N <= round_fix prec M V <= (j + 1) * 2 ^ N).
  { destruct (Z.le_gt_cases (grid prec M V) N) as [Hgrid | Hgrid].
    - apply round_fix_between; [lia | exact Hgrid | exact HVj].
    - (* only [V = 2^prec * 2^N] has a coarser grid, and it is exact *)
      assert (Hl : N + prec <= Z.log2 V) by (unfold grid in Hgrid; lia).
      assert (HVpos : 0 < V).
      { destruct (Z.le_gt_cases V 0) as [Hle | Hgt]; [|exact Hgt].
        rewrite Z.log2_nonpos in Hl by exact Hle. lia. }
      pose proof (Z.log2_spec V HVpos) as Hlog.
      assert (Hpow : 2 ^ (N + prec) <= 2 ^ Z.log2 V)
        by (apply Z.pow_le_mono_r; lia).
      assert (HVtop : V <= 2 ^ prec * 2 ^ N)
        by (unfold V; rewrite HNsplit; nia).
      assert (HVeq : V = 2 ^ prec * 2 ^ N)
        by (rewrite Z.pow_add_r in Hpow by lia; lia).
      rewrite HVeq.
      rewrite (round_fix_int prec Hprec M N (2 ^ prec)) by lia.
      rewrite <- HVeq. exact HVj. }
  split.
  - apply Z.div_le_lower_bound; [exact HPN | lia].
  - apply Z.div_le_upper_bound; [exact HPN | lia].
Qed.

End Floor.

Lemma to_pixel_bounds (origin size : Z) (p : float) :
  0 < size <= 9007199254740992 -> normalized p = true ->
  exists k,
    to_pixel origin size p = Ok (origin + k) /\ 0 <= k <= size /\
    exact_floor p size <= k <= exact_floor p size + 1.
Proof.
  intros Hsize Hn.
  destruct (normalized_unit p Hn) as [Hvalid Hunit].
  exists (pixel_offset float_prec float_emax size p).
  split; [apply to_pixel_fix; assumption|].
  split.
  - assert (Hzero : normalized float_zero = true) by reflexivity.
    assert (Hone : normalized float_one = true) by reflexivity.
    destruct (to_pixel_mono 0 size float_zero p Hsize Hzero Hn)
      as (a & b & Ha & Hb & Hab).
    destruct (to_pixel_mono 0 size p float_one Hsize Hn Hone)
      as (c & d & Hc & Hd & Hcd).
    rewrite to_pixel_zero in Ha by exact Hsize.
    rewrite to_pixel_one in Hd by exact Hsize.
    rewrite to_pixel_fix in Hb, Hc by assumption.
    injection Ha as <-. injection Hb as <-.
    injection Hc as <-. injection Hd as <-.
    unfold normalized in Hn.
    apply andb_prop in Hn. destruct Hn as [Hn Hle1].
    apply andb_prop in Hn. destruct Hn as [_ Hle0].
    specialize (Hab Hle0). specialize (Hcd Hle1). lia.
  - unfold exact_floor.
    apply (pixel_offset_floor float_prec float_emax float_prec_pos
             float_emax_large p size Hunit).
    rewrite float_prec_pow. exact Hsize.
Qed.

(** X12. Normalized points stay inside the chart: for chart sizes in
    [1 .. 2^53] and every list of normalized points, [to_xy] does not raise,
    returns one pixel per point, and every pixel lies in the box
    [[bx, bx+bw] x [by, by+bh]]. *)
Theorem chart_points_inside (bx by_ bw bh : Z)
  (points : list (float * float)) :
  0 < bw <= 9007199254740992 -> 0 < bh <= 9007199254740992 ->
  forallb normalized_point points = true ->
  exists out,
    to_xy bx by_ bw bh points = Ok out /\
    List.length out = List.length points /\
    Forall (fun q => bx <= fst q <= bx + bw /\ by_ <= snd q <= by_ + bh) out.
Proof.
  intros Hbw Hbh. induction points as [|[px py] rest IH]; intros Hall.
  - exists []. repeat split. constructor.
  - cbn [forallb] in Hall. apply andb_prop in Hall. destruct Hall as [Hp Hrest].
    unfold normalized_point in Hp. cbn [fst snd] in Hp.
    apply andb_prop in Hp. destruct Hp as [Hpx Hpy].
    destruct (to_pixel_bounds bx bw px Hbw Hpx) as (kx & Ex & Hkx & _).
    destruct (to_pixel_bounds by_ bh py Hbh Hpy) as (ky & Ey & Hky & _).
    destruct (IH Hrest) as (out & Eout & Hlen & Hins).
    exists ((bx + kx, by_ + ky) :: out).
    cbn [to_xy]. rewrite Ex, Ey, Eout. cbn [rbind].
    split; [reflexivity|]. split; [cbn [List.length]; congruence|].
    constructor; [cbn [fst snd]; lia | exact Hins].
Qed.

(** The red series of the script. *)
Lemma chart_points_inside_witness :
  exists out,
    to_xy 92 560 1360 300 points_remote = Ok out /\
    List.length out = List.length points_remote /\
    Forall (fun q => 92 <= fst q <= 92 + 1360 /\ 560 <= snd q <= 560 + 300)
           out.
Proof.
  apply (chart_points_inside 92 560 1360 300 points_remote);
    [lia | lia | vm_compute; reflexivity].
Defined.

(** X13. The axis mapping is the floor of the exact product up to one
    pixel: for a normalized [p] and a size in [1 .. 2^53],
    [int(p * size)] is [floor (p * size)] or one more, the product being
    rounded before it is truncated.  Both happen in the script: the double
    [0.58] times [300] is below [174], yet the pixel offset is [174]; for
    [0.78] the offset is the floor, [234]. *)
Theorem to_pixel_near_floor :
  (forall (origin size : Z) (p : float),
     0 < size <= 9007199254740992 -> normalized p = true ->
     exists k,
       to_pixel origin size p = Ok (origin + k) /\
       exact_floor p size <= k <= exact_floor p size + 1) /\
  (to_pixel 560 300 (decimal 58 2) = Ok (560 + 174) /\
   exact_floor (decimal 58 2) 300 = 173) /\
  (to_pixel 560 300 (decimal 78 2) = Ok (560 + 234) /\
   exact_floor (decimal 78 2) 300 = 234).
Proof.
  split; [|split].
  - intros origin size p Hsize Hn.
    destruct (to_pixel_bounds origin size p Hsize Hn) as (k & Ek & _ & Hk).
    exists k. split; assumption.
  - split; vm_compute; reflexivity.
  - split; vm_compute; reflexivity.
Qed.

(** The last column of the chart. *)
Lemma to_pixel_near_floor_witness :
  exists k,
    to_pixel 92 1360 (decimal 93 2) = Ok (92 + k) /\
    exact_floor (decimal 93 2) 1360 <= k
    <= exact_floor (decimal 93 2) 1360 + 1.
Proof.
  apply (proj1 to_pixel_near_floor 92 1360 (decimal 93 2));
    [lia | vm_compute; reflexivity].
Defined.

(** ** The entry point *)

Lemma save_name {B : Backend} (name : string) (d : Draw unit)
  (n : string) (img : Image) :
  save name d = Ok (n, img) -> n = name.
Proof.
  unfold save. destruct (d (Image_new (W, H) BG)) as [[u img']|e];
    cbn [rbind]; [|discriminate].
  destruct (Image_save name img') as [[]|e]; cbn [rbind];
    intros Heq; [injection Heq as <- _; reflexivity | discriminate].
Qed.

Ltac outcome :=
  unfold diagram_files; cbn; rewrite <- ?app_assoc, ?app_nil_r; cbn;
  split; [reflexivity|];
  split; [eexists; reflexivity|];
  split; [split; intros Heq; first [discriminate | reflexivity]|];
  split; [reflexivity|];
  intros e' He'; first [discriminate | split; [congruence | reflexivity]].



(** A save that fails: when the path of the third diagram is taken, [main]
    leaves the first two files, raises, and prints nothing. *)
Lemma main_stops_at_failed_save :
  let B := BlockedRecorder "infographic_control_plane.png" in
  let out := main (B := B) "docs/launch" (Ok tt) default_fonts
                  {| files := []; stdout := [] |} in
  render_control_plane (B := B) default_fonts = Raise OSError /\
  fst out = Raise OSError /\
  map fst (files (snd out))
    = [ "infographic_architecture.png"; "infographic_security_model.png" ] /\
  stdout (snd out) = [].
Proof. vm_compute. repeat split; reflexivity. Qed.
